(** * The combat state engine of dungeon-master-mcp

    A shallow embedding of [tools/combat.go]: the encounter store
    ([CombatState], [Entity]) and the eight tool handlers registered by
    [RegisterCombatTools], followed by the properties of the combat
    specification that were checked against them.

    Conventions of the embedding:
    - a Go [int] is a [Z] kept in the 64-bit two's-complement range; every
      arithmetic operator of the source goes through [GoInt], which writes
      the wrap-around out;
    - a Go [map[string]T] is a [gmap string T]; a [nil] result of a lookup
      on [map[string]*Entity] is [None];
    - the process-wide [combatState] is passed explicitly: a handler takes
      the store and gives back the store it leaves behind;
    - what the Go runtime is free to choose (the order in which [range]
      walks a map, what [sort.Slice] does with equal elements, the value
      of [rand.Intn]) is collected in a [Runtime] that a handler receives. *)

From Stdlib Require Import ZArith String DecimalString Decimal Sorted Lia.
From stdpp Require Import gmap strings list fin_maps.

Local Open Scope Z_scope.

(** ** Go's [int] *)

Module GoInt.

Definition min_int : Z := -9223372036854775808.
Definition max_int : Z := 9223372036854775807.
Definition modulus : Z := 18446744073709551616.

(** The value of a 64-bit signed integer that holds [z] modulo 2^64. *)
Definition wrap (z : Z) : Z := (z - min_int) mod modulus + min_int.

(** [z] is a value an [int] variable can hold. *)
Definition ok (z : Z) : Prop := min_int <= z <= max_int.

Definition add (a b : Z) : Z := wrap (a + b).
Definition sub (a b : Z) : Z := wrap (a - b).
(** Go's [/] on integers truncates toward zero. *)
Definition div (a b : Z) : Z := wrap (Z.quot a b).

End GoInt.

(** [len] of a slice or of a map, as an [int]. *)
Definition len {A} (l : list A) : Z := Z.of_nat (length l).

(** [s[i]] on a slice: [None] stands for the run-time panic "index out of
    range". *)
Definition index {A} (l : list A) (i : Z) : option A :=
  if (0 <=? i) && (i <? len l) then l !! Z.to_nat i else None.

(** ** fmt.Sprintf verbs used by the handlers *)

(** [%d] *)
Definition fmt_d (z : Z) : string := NilZero.string_of_int (Z.to_int z).

(** [%v] on a [[]string]: the elements separated by one space, in brackets. *)
Definition fmt_v (l : list string) : string :=
  "[" +:+ String.concat " " l +:+ "]".

(** ** The data model *)

Record Entity := mkEntity {
  ID : string;
  Name : string;
  InitiativeRoll : Z;
  MaxHP : Z;
  CurrentHP : Z;
  AC : Z;
  Conditions : gmap string Z;
  Resources : gmap string Z;
  IsMonster : bool;
  MonsterName : string;
  LegendaryActions : Z;
  MaxLegendaryActions : Z;
  LegendaryResistances : Z
}.

Record CombatState := mkCombatState {
  Entities : gmap string Entity;
  TurnOrder : list string;
  CurrentTurn : Z;
  RoundNumber : Z
}.

(** Field assignments through an [*Entity]. *)
Definition with_CurrentHP (v : Z) (e : Entity) : Entity :=
  mkEntity (ID e) (Name e) (InitiativeRoll e) (MaxHP e) v (AC e)
    (Conditions e) (Resources e) (IsMonster e) (MonsterName e)
    (LegendaryActions e) (MaxLegendaryActions e) (LegendaryResistances e).

Definition with_Conditions (v : gmap string Z) (e : Entity) : Entity :=
  mkEntity (ID e) (Name e) (InitiativeRoll e) (MaxHP e) (CurrentHP e) (AC e)
    v (Resources e) (IsMonster e) (MonsterName e)
    (LegendaryActions e) (MaxLegendaryActions e) (LegendaryResistances e).

Definition with_Resources (v : gmap string Z) (e : Entity) : Entity :=
  mkEntity (ID e) (Name e) (InitiativeRoll e) (MaxHP e) (CurrentHP e) (AC e)
    (Conditions e) v (IsMonster e) (MonsterName e)
    (LegendaryActions e) (MaxLegendaryActions e) (LegendaryResistances e).

Definition with_LegendaryActions (v : Z) (e : Entity) : Entity :=
  mkEntity (ID e) (Name e) (InitiativeRoll e) (MaxHP e) (CurrentHP e) (AC e)
    (Conditions e) (Resources e) (IsMonster e) (MonsterName e)
    v (MaxLegendaryActions e) (LegendaryResistances e).

Definition with_MaxLegendaryActions (v : Z) (e : Entity) : Entity :=
  mkEntity (ID e) (Name e) (InitiativeRoll e) (MaxHP e) (CurrentHP e) (AC e)
    (Conditions e) (Resources e) (IsMonster e) (MonsterName e)
    (LegendaryActions e) v (LegendaryResistances e).

Definition with_LegendaryResistances (v : Z) (e : Entity) : Entity :=
  mkEntity (ID e) (Name e) (InitiativeRoll e) (MaxHP e) (CurrentHP e) (AC e)
    (Conditions e) (Resources e) (IsMonster e) (MonsterName e)
    (LegendaryActions e) (MaxLegendaryActions e) v.

(** A write through the pointer stored under [id]: the map entry changes,
    nothing else of the store does. *)
Definition store (id : string) (e : Entity) (st : CombatState) : CombatState :=
  mkCombatState (<[id := e]> (Entities st)) (TurnOrder st)
    (CurrentTurn st) (RoundNumber st).

(** ** Inputs and outputs of the tools *)

Module EntityInit.
Record t := mk {
  ID : string;
  Name : string;
  Initiative : Z;
  HP : Z;
  AC : Z;
  IsMonster : bool;
  MonsterName : string
}.
End EntityInit.

Module StartCombatInput.
Record t := mk { Entities : list EntityInit.t }.
End StartCombatInput.

Module StartCombatOutput.
Record t := mk { TurnOrder : list string; Message : string }.
End StartCombatOutput.

Module NextTurnOutput.
Record t := mk {
  CurrentEntityID : string;
  CurrentEntityName : string;
  RoundNumber : Z;
  Effects : list string;
  CombatStatus : gmap string string
}.
End NextTurnOutput.

Module ApplyDamageInput.
Record t := mk { TargetID : string; Damage : Z; DamageType : string }.
End ApplyDamageInput.

Module ApplyDamageOutput.
Record t := mk {
  FinalDamage : Z;
  RemainingHP : Z;
  Message : string;
  IsUnconscious : bool
}.
End ApplyDamageOutput.

Module ApplyHealingInput.
Record t := mk { TargetID : string; Amount : Z }.
End ApplyHealingInput.

Module ApplyHealingOutput.
Record t := mk { AmountHealed : Z; CurrentHP : Z; Message : string }.
End ApplyHealingOutput.

Module AddConditionInput.
Record t := mk { TargetID : string; Condition : string; Duration : Z }.
End AddConditionInput.

Module AddConditionOutput.
Record t := mk { Message : string }.
End AddConditionOutput.

Module SavingThrowInput.
Record t := mk { EntityID : string; SaveType : string; DC : Z }.
End SavingThrowInput.

Module SavingThrowOutput.
Record t := mk {
  Roll : Z;
  Bonus : Z;
  Total : Z;
  Success : bool;
  UsedLegendaryResistance : bool;
  RemainingLegendaryResists : Z;
  Message : string
}.
End SavingThrowOutput.

Module LegendaryActionInput.
Record t := mk { MonsterID : string; ActionName : string; Cost : Z }.
End LegendaryActionInput.

Module LegendaryActionOutput.
Record t := mk { Success : bool; RemainingActions : Z; Message : string }.
End LegendaryActionOutput.

Module TrackResourceInput.
Record t := mk { EntityID : string; ResourceName : string; CurrentValue : Z }.
End TrackResourceInput.

Module TrackResourceOutput.
Record t := mk { Message : string }.
End TrackResourceOutput.

(** How a handler call ends: it returns an output and a [nil] error, it
    returns a non-[nil] error, or it panics. Each case carries the store
    as the call leaves it. *)
Inductive outcome (A : Type) : Type :=
| Returned (st : CombatState) (out : A)
| Failed (st : CombatState) (err : string)
| Panicked (st : CombatState) (msg : string).

Arguments Returned {A} st out.
Arguments Failed {A} st err.
Arguments Panicked {A} st msg.

Definition final_state {A} (o : outcome A) : CombatState :=
  match o with
  | Returned st _ | Failed st _ | Panicked st _ => st
  end.

Definition outcome_map {A B} (f : A -> B) (o : outcome A) : outcome B :=
  match o with
  | Returned st out => Returned st (f out)
  | Failed st err => Failed st err
  | Panicked st msg => Panicked st msg
  end.

(** ** What the Go runtime chooses *)

(** A [Runtime] fixes the choices for one handler call; two calls, or two
    runs of the same call, may be given different ones. Within a call a
    map is walked in the order [range] gives for its contents. *)

(** [less] is a strict weak ordering, which [sort.Slice] asks of its
    comparison. *)
Definition strict_weak {A} (less : A -> A -> bool) : Prop :=
  (forall a b, less a b = true -> less b a = false) /\
  (forall a b c, less a b = false -> less b c = false -> less a c = false).

Record Runtime := mkRuntime {
  (** the order in which a [for k, v := range m] visits the entries of [m]:
      every entry once, in an order the language leaves open *)
  range : forall A, gmap string A -> list (string * A);
  range_perm : forall A (m : gmap string A), range A m ≡ₚ map_to_list m;
  (** [sort.Slice]: a rearrangement of the slice in which no element is
      [less] than one before it; equal elements may end in any order *)
  sort_Slice : forall A, (A -> A -> bool) -> list A -> list A;
  sort_Slice_perm : forall A less (l : list A), sort_Slice A less l ≡ₚ l;
  sort_Slice_sorted : forall A (less : A -> A -> bool) l,
    strict_weak less ->
    StronglySorted (fun a b => less b a = false) (sort_Slice A less l);
  (** [rand.Intn(n)] *)
  rand_Intn : Z -> Z;
  rand_Intn_range : forall n, 0 < n -> 0 <= rand_Intn n < n
}.

Arguments range rt {A} m : rename.
Arguments sort_Slice rt {A} less l : rename.

(** ** The handlers *)

(** [loadMonsterStats] *)
Definition loadMonsterStats (entity : Entity) : Entity :=
  if String.eqb (MonsterName entity) "Ancient Red Dragon" then
    with_LegendaryResistances 3
      (with_LegendaryActions 3 (with_MaxLegendaryActions 3 entity))
  else entity.

(** The body of the "Create entities" loop of [handleStartCombat]: the
    entity built from one [EntityInit], fields not listed in the composite
    literal being zero. *)
Definition newEntity (e : EntityInit.t) : Entity :=
  let entity :=
    mkEntity (EntityInit.ID e) (EntityInit.Name e) (EntityInit.Initiative e)
      (EntityInit.HP e) (EntityInit.HP e) (EntityInit.AC e)
      ∅ ∅ (EntityInit.IsMonster e) (EntityInit.MonsterName e) 0 0 0 in
  if EntityInit.IsMonster e && negb (String.eqb (EntityInit.MonsterName e) "")
  then loadMonsterStats entity
  else entity.

(** [combatState.Entities] after the "Create entities" loop: a later entry
    with the same id replaces an earlier one. *)
Definition createEntities (l : list EntityInit.t) : gmap string Entity :=
  fold_left (fun m e => <[EntityInit.ID e := newEntity e]> m) l ∅.

Module initPair.
Record t := mk { id : string; init : Z }.
End initPair.

(** The pair collected for one map entry. *)
Definition pairOf (entry : string * Entity) : initPair.t :=
  initPair.mk entry.1 (InitiativeRoll entry.2).

(** The comparison handed to [sort.Slice]. *)
Definition initLess (a b : initPair.t) : bool :=
  initPair.init a >? initPair.init b.

(** The last two loops of [handleStartCombat]: the pairs collected by
    ranging over the map, sorted, and their ids appended to the empty
    [TurnOrder]. *)
Definition computeTurnOrder (rt : Runtime) (entities : gmap string Entity)
  : list string :=
  let pairs :=
    fold_left (fun pairs '(id, e) => pairs ++ [initPair.mk id (InitiativeRoll e)])
      (range rt entities) [] in
  let pairs := sort_Slice rt initLess pairs in
  fold_left (fun order p => order ++ [initPair.id p]) pairs [].

Definition handleStartCombat (rt : Runtime) (st : CombatState)
    (input : StartCombatInput.t) : outcome StartCombatOutput.t :=
  let entities := createEntities (StartCombatInput.Entities input) in
  let order := computeTurnOrder rt entities in
  Returned (mkCombatState entities order 0 1)
    (StartCombatOutput.mk order
       ("Combat started with " +:+ fmt_d (Z.of_nat (size entities))
        +:+ " combatants. Round 1, turn 1.")).

(** One iteration of the "Process conditions" loop of [handleNextTurn], on
    the entry [(condition, duration)] that [range] produced; [conds] is
    [current.Conditions] and [effects] the effect list so far. A read of a
    missing key gives 0. *)
Definition processCondition (acc : gmap string Z * list string)
    (entry : string * Z) : gmap string Z * list string :=
  let '(conds, effects) := acc in
  let '(condition, duration) := entry in
  if duration >? 0 then
    let conds := <[condition := GoInt.sub (default 0 (conds !! condition)) 1]> conds in
    if default 0 (conds !! condition) =? 0 then
      (delete condition conds,
       effects ++ ["Condition '" +:+ condition +:+ "' ended"])
    else (conds, effects)
  else (conds, effects).

(** The list of condition names collected for one entity's status line. *)
Definition condList (rt : Runtime) (e : Entity) : list string :=
  fold_left (fun l '(c, _) => l ++ [c]) (range rt (Conditions e)) [].

(** One entity's line of the status summary. *)
Definition statusLine (rt : Runtime) (e : Entity) : string :=
  let condList := condList rt e in
  let condStr :=
    if len condList >? 0 then " [" +:+ fmt_v condList +:+ "]" else "" in
  Name e +:+ ": " +:+ fmt_d (CurrentHP e) +:+ "/" +:+ fmt_d (MaxHP e)
    +:+ " HP" +:+ condStr.

(** The "Build status summary" loop. *)
Definition buildStatus (rt : Runtime) (entities : gmap string Entity)
  : gmap string string :=
  fold_left (fun status '(id, e) => <[id := statusLine rt e]> status)
    (range rt entities) ∅.

(** "Advance turn": the cursor after the increment and the wrap. *)
Definition advanceTurn (st : CombatState) : CombatState :=
  let turn := GoInt.add (CurrentTurn st) 1 in
  if turn >=? len (TurnOrder st)
  then mkCombatState (Entities st) (TurnOrder st) 0
         (GoInt.add (RoundNumber st) 1)
  else mkCombatState (Entities st) (TurnOrder st) turn (RoundNumber st).

(** "Reset legendary actions at start of monster turn": the entity and the
    effect list after the first [if]. *)
Definition resetLegendary (current : Entity) : Entity * list string :=
  if IsMonster current && (MaxLegendaryActions current >? 0) then
    (with_LegendaryActions (MaxLegendaryActions current) current,
     ["Legendary actions reset to " +:+ fmt_d (MaxLegendaryActions current)])
  else (current, []).

(** "Process conditions (decrement duration)": the whole loop. *)
Definition processConditions (rt : Runtime) (acc : Entity * list string)
  : Entity * list string :=
  let '(current, effects) := acc in
  let '(conds, effects) :=
    fold_left processCondition (range rt (Conditions current))
      (Conditions current, effects) in
  (with_Conditions conds current, effects).

Definition handleNextTurn (rt : Runtime) (st : CombatState)
  : outcome NextTurnOutput.t :=
  let st := advanceTurn st in
  match index (TurnOrder st) (CurrentTurn st) with
  | None => Panicked st "index out of range"
  | Some currentID =>
    match Entities st !! currentID with
    | None => Panicked st "invalid memory address or nil pointer dereference"
    | Some current =>
      let '(current, effects) := processConditions rt (resetLegendary current) in
      let st := store currentID current st in
      Returned st
        (NextTurnOutput.mk currentID (Name current) (RoundNumber st) effects
           (buildStatus rt (Entities st)))
    end
  end.

Definition handleApplyDamage (st : CombatState) (input : ApplyDamageInput.t)
  : outcome ApplyDamageOutput.t :=
  let id := ApplyDamageInput.TargetID input in
  match Entities st !! id with
  | None => Failed st ("target not found: " +:+ id)
  | Some target =>
    let '(finalDamage, modifier) :=
      match Resources target !! "resistances" with
      | Some _ => (GoInt.div (ApplyDamageInput.Damage input) 2, " (resisted)")
      | None => (ApplyDamageInput.Damage input, "")
      end in
    let hp := GoInt.sub (CurrentHP target) finalDamage in
    let hp := if hp <? 0 then 0 else hp in
    let target := with_CurrentHP hp target in
    let isUnconscious := CurrentHP target =? 0 in
    Returned (store id target st)
      (ApplyDamageOutput.mk finalDamage (CurrentHP target)
         (Name target +:+ " takes " +:+ fmt_d finalDamage +:+ " "
          +:+ ApplyDamageInput.DamageType input +:+ " damage" +:+ modifier
          +:+ ". " +:+ fmt_d (CurrentHP target) +:+ " HP remaining.")
         isUnconscious)
  end.

Definition handleApplyHealing (st : CombatState) (input : ApplyHealingInput.t)
  : outcome ApplyHealingOutput.t :=
  let id := ApplyHealingInput.TargetID input in
  match Entities st !! id with
  | None => Failed st ("target not found: " +:+ id)
  | Some target =>
    let before := CurrentHP target in
    let hp := GoInt.add (CurrentHP target) (ApplyHealingInput.Amount input) in
    let hp := if hp >? MaxHP target then MaxHP target else hp in
    let target := with_CurrentHP hp target in
    let healed := GoInt.sub (CurrentHP target) before in
    Returned (store id target st)
      (ApplyHealingOutput.mk healed (CurrentHP target)
         (Name target +:+ " healed for " +:+ fmt_d healed +:+ " HP. Now at "
          +:+ fmt_d (CurrentHP target) +:+ "/" +:+ fmt_d (MaxHP target) +:+ "."))
  end.

Definition handleAddCondition (st : CombatState) (input : AddConditionInput.t)
  : outcome AddConditionOutput.t :=
  let id := AddConditionInput.TargetID input in
  match Entities st !! id with
  | None => Failed st ("target not found: " +:+ id)
  | Some target =>
    let target :=
      with_Conditions
        (<[AddConditionInput.Condition input := AddConditionInput.Duration input]>
           (Conditions target)) target in
    let durationMsg :=
      if AddConditionInput.Duration input =? -1 then "permanent"
      else fmt_d (AddConditionInput.Duration input) +:+ " turns" in
    Returned (store id target st)
      (AddConditionOutput.mk
         (Name target +:+ " is now " +:+ AddConditionInput.Condition input
          +:+ " (" +:+ durationMsg +:+ ")."))
  end.

Definition handleSavingThrow (rt : Runtime) (st : CombatState)
    (input : SavingThrowInput.t) : outcome SavingThrowOutput.t :=
  let id := SavingThrowInput.EntityID input in
  match Entities st !! id with
  | None => Failed st ("entity not found: " +:+ id)
  | Some entity =>
    (* Roll d20 *)
    let roll := GoInt.add (rand_Intn rt 20) 1 in
    let bonus := if IsMonster entity then 3 else 0 in
    let total := GoInt.add roll bonus in
    let success := total >=? SavingThrowInput.DC input in
    let '(success, usedLegendary, entity, st) :=
      if negb success && (LegendaryResistances entity >? 0) then
        (* Auto-succeed using legendary resistance *)
        let entity :=
          with_LegendaryResistances
            (GoInt.sub (LegendaryResistances entity) 1) entity in
        (true, true, entity, store id entity st)
      else (success, false, entity, st) in
    let message :=
      Name entity +:+ " rolled " +:+ fmt_d roll +:+ "+" +:+ fmt_d bonus +:+ "="
      +:+ fmt_d total +:+ " vs DC " +:+ fmt_d (SavingThrowInput.DC input)
      +:+ ": " +:+ (if success then "SUCCESS" else "FAILURE") in
    let message :=
      if usedLegendary then
        message +:+ " (used legendary resistance, "
        +:+ fmt_d (LegendaryResistances entity) +:+ " remaining)"
      else message in
    Returned st
      (SavingThrowOutput.mk roll bonus total success usedLegendary
         (LegendaryResistances entity) message)
  end.

Definition handleLegendaryAction (st : CombatState)
    (input : LegendaryActionInput.t) : outcome LegendaryActionOutput.t :=
  let id := LegendaryActionInput.MonsterID input in
  match Entities st !! id with
  | None => Failed st ("monster not found: " +:+ id)
  | Some monster =>
    if LegendaryActions monster <? LegendaryActionInput.Cost input then
      Returned st
        (LegendaryActionOutput.mk false (LegendaryActions monster)
           ("Insufficient legendary actions. Has "
            +:+ fmt_d (LegendaryActions monster) +:+ ", needs "
            +:+ fmt_d (LegendaryActionInput.Cost input) +:+ "."))
    else
      let monster :=
        with_LegendaryActions
          (GoInt.sub (LegendaryActions monster) (LegendaryActionInput.Cost input))
          monster in
      Returned (store id monster st)
        (LegendaryActionOutput.mk true (LegendaryActions monster)
           (Name monster +:+ " uses " +:+ LegendaryActionInput.ActionName input
            +:+ " (cost " +:+ fmt_d (LegendaryActionInput.Cost input) +:+ "). "
            +:+ fmt_d (LegendaryActions monster)
            +:+ " legendary actions remaining."))
  end.

Definition handleTrackResource (st : CombatState) (input : TrackResourceInput.t)
  : outcome TrackResourceOutput.t :=
  let id := TrackResourceInput.EntityID input in
  match Entities st !! id with
  | None => Failed st ("entity not found: " +:+ id)
  | Some entity =>
    let entity :=
      with_Resources
        (<[TrackResourceInput.ResourceName input :=
             TrackResourceInput.CurrentValue input]> (Resources entity))
        entity in
    Returned (store id entity st)
      (TrackResourceOutput.mk
         (Name entity +:+ " now has "
          +:+ fmt_d (TrackResourceInput.CurrentValue input) +:+ " "
          +:+ TrackResourceInput.ResourceName input +:+ "."))
  end.

(** ** The tool table of [RegisterCombatTools] *)

Inductive request : Type :=
| start_combat (input : StartCombatInput.t)
| next_turn
| apply_damage (input : ApplyDamageInput.t)
| apply_healing (input : ApplyHealingInput.t)
| add_condition (input : AddConditionInput.t)
| make_saving_throw (input : SavingThrowInput.t)
| use_legendary_action (input : LegendaryActionInput.t)
| track_resource (input : TrackResourceInput.t).

Inductive response : Type :=
| StartCombatOutput_ (out : StartCombatOutput.t)
| NextTurnOutput_ (out : NextTurnOutput.t)
| ApplyDamageOutput_ (out : ApplyDamageOutput.t)
| ApplyHealingOutput_ (out : ApplyHealingOutput.t)
| AddConditionOutput_ (out : AddConditionOutput.t)
| SavingThrowOutput_ (out : SavingThrowOutput.t)
| LegendaryActionOutput_ (out : LegendaryActionOutput.t)
| TrackResourceOutput_ (out : TrackResourceOutput.t).

Definition call_tool (rt : Runtime) (st : CombatState) (req : request)
  : outcome response :=
  match req with
  | start_combat i => outcome_map StartCombatOutput_ (handleStartCombat rt st i)
  | next_turn => outcome_map NextTurnOutput_ (handleNextTurn rt st)
  | apply_damage i => outcome_map ApplyDamageOutput_ (handleApplyDamage st i)
  | apply_healing i => outcome_map ApplyHealingOutput_ (handleApplyHealing st i)
  | add_condition i => outcome_map AddConditionOutput_ (handleAddCondition st i)
  | make_saving_throw i => outcome_map SavingThrowOutput_ (handleSavingThrow rt st i)
  | use_legendary_action i =>
      outcome_map LegendaryActionOutput_ (handleLegendaryAction st i)
  | track_resource i => outcome_map TrackResourceOutput_ (handleTrackResource st i)
  end.

(** The entity id a request refers to; [start_combat] and [next_turn] name
    none. *)
Definition request_entity (req : request) : option string :=
  match req with
  | start_combat _ | next_turn => None
  | apply_damage i => Some (ApplyDamageInput.TargetID i)
  | apply_healing i => Some (ApplyHealingInput.TargetID i)
  | add_condition i => Some (AddConditionInput.TargetID i)
  | make_saving_throw i => Some (SavingThrowInput.EntityID i)
  | use_legendary_action i => Some (LegendaryActionInput.MonsterID i)
  | track_resource i => Some (TrackResourceInput.EntityID i)
  end.

(** [n] successive calls of [next_turn]; [None] as soon as one of them does
    not return. *)
Fixpoint next_turns (rt : Runtime) (n : nat) (st : CombatState)
  : option CombatState :=
  match n with
  | O => Some st
  | S n =>
    match handleNextTurn rt st with
    | Returned st _ => next_turns rt n st
    | _ => None
    end
  end.

(** The store [RegisterCombatTools] starts with. *)
Definition registered : CombatState := mkCombatState ∅ [] 0 0.

(** ** Predicates of the specification *)

(** The hit-point bounds of one entity. *)
Definition hp_bounds (e : Entity) : Prop := 0 <= CurrentHP e <= MaxHP e.

(** Every entity of the encounter is within its hit-point bounds, [MaxHP]
    being an [int]. *)
Definition hp_invariant (st : CombatState) : Prop :=
  map_Forall (fun _ e => hp_bounds e /\ MaxHP e <= GoInt.max_int) (Entities st).

(** The cursor points into a turn order made of ids of the encounter. *)
Definition cursor_valid (st : CombatState) : Prop :=
  0 <= CurrentTurn st < len (TurnOrder st) /\
  len (TurnOrder st) <= GoInt.max_int /\
  Forall (fun id => is_Some (Entities st !! id)) (TurnOrder st).

(** The initiative of the entity stored under [id]. *)
Definition initiative (st : CombatState) (id : string) : Z :=
  default 0 (InitiativeRoll <$> Entities st !! id).

(** No two entities of the encounter have the same initiative. *)
Definition no_ties (entities : gmap string Entity) : Prop :=
  forall id1 id2 e1 e2,
    entities !! id1 = Some e1 -> entities !! id2 = Some e2 ->
    InitiativeRoll e1 = InitiativeRoll e2 -> id1 = id2.

(** What the "Process conditions" loop leaves of one counter: [None] when
    the entry is deleted. *)
Definition tick (duration : Z) : option Z :=
  if duration >? 0 then
    let d := GoInt.sub duration 1 in
    if d =? 0 then None else Some d
  else Some duration.

(** The entity whose turn starts, after the start-of-turn effects: the
    legendary actions of a monster that has any are back at their maximum,
    and every condition counter went through [tick]. *)
Definition startOfTurn (current : Entity) : Entity :=
  let current := (resetLegendary current).1 in
  with_Conditions (omap tick (Conditions current)) current.

(** The inputs under which the hit-point bounds are kept: a fresh
    encounter gets hit points that are not negative, damage and healing
    amounts are not negative, and healing does not carry the hit points
    past the largest [int]. *)
Definition admissible (st : CombatState) (req : request) : Prop :=
  match req with
  | start_combat i =>
      Forall (fun e => 0 <= EntityInit.HP e <= GoInt.max_int)
        (StartCombatInput.Entities i)
  | apply_damage i => 0 <= ApplyDamageInput.Damage i <= GoInt.max_int
  | apply_healing i =>
      0 <= ApplyHealingInput.Amount i /\
      forall target,
        Entities st !! ApplyHealingInput.TargetID i = Some target ->
        CurrentHP target + ApplyHealingInput.Amount i <= GoInt.max_int
  | _ => True
  end.

(** The store a call of [next_turn] leaves, which no choice of the
    runtime enters. *)
Definition nextTurnState (st : CombatState) : CombatState :=
  let st := advanceTurn st in
  match index (TurnOrder st) (CurrentTurn st) with
  | None => st
  | Some currentID =>
    match Entities st !! currentID with
    | None => st
    | Some current => store currentID (startOfTurn current) st
    end
  end.

(** ** The dice tools *)

Module SimpleRollOutput.
Record t := mk { Roll : Z; Note : string }.
End SimpleRollOutput.

Module RollD20AdvantageOutput.
Record t := mk { Rolls : list Z; Total : Z; Note : string }.
End RollD20AdvantageOutput.

Module RollD20DisadvantageOutput.
Record t := mk { Rolls : list Z; Total : Z; Note : string }.
End RollD20DisadvantageOutput.

(** The dice handlers draw from [rand.Intn(20)] once or twice; the draws
    are their arguments here, in the order the source makes them. They
    always return with a [nil] error. *)
Definition RollD20 (draw : Z) : SimpleRollOutput.t :=
  let roll := GoInt.add draw 1 in
  SimpleRollOutput.mk roll ("Rolled a " +:+ fmt_d roll +:+ " on a d20").

Definition RollD20Advantage (draw1 draw2 : Z) : RollD20AdvantageOutput.t :=
  let r1 := GoInt.add draw1 1 in
  let r2 := GoInt.add draw2 1 in
  let total := Z.max r1 r2 in
  RollD20AdvantageOutput.mk [r1; r2] total
    "Rolled with advantage (kept highest)".

Definition RollD20Disadvantage (draw1 draw2 : Z) : RollD20DisadvantageOutput.t :=
  let r1 := GoInt.add draw1 1 in
  let r2 := GoInt.add draw2 1 in
  let total := Z.min r1 r2 in
  RollD20DisadvantageOutput.mk [r1; r2] total
    "Rolled with disadvantage (kept lowest)".

(** ** The turn-transition prompt of [prompts/combat.go] *)

(** How a prompt handler ends: with a result (its description and the
    text of its one "user" message), with an error, or in a panic. A
    prompt handler only reads the store. *)
Inductive prompt_outcome : Type :=
| PromptResult (description : string) (text : string)
| PromptError (err : string)
| PromptPanic (msg : string).

(** The line feed of the Go raw strings. *)
Definition nl : string := String (Ascii.ascii_of_nat 10) EmptyString.

(** The "Add status for all combatants" loop of
    [handleTurnTransitionPrompt]: one line per id of the turn order, in
    that order; [None] is the nil-pointer panic on an id the map does not
    hold. *)
Fixpoint promptStatus (rt : Runtime) (entities : gmap string Entity)
    (order : list string) (content : string) : option string :=
  match order with
  | [] => Some content
  | id :: order =>
    match entities !! id with
    | None => None
    | Some entity =>
      let conditions :=
        if Z.of_nat (size (Conditions entity)) >? 0
        then " [" +:+ fmt_v (condList rt entity) +:+ "]"
        else "" in
      promptStatus rt entities order
        (content +:+ "- " +:+ Name entity +:+ ": " +:+ fmt_d (CurrentHP entity)
         +:+ "/" +:+ fmt_d (MaxHP entity) +:+ " HP" +:+ conditions +:+ nl)
    end
  end.

(** The text before the status lines. *)
Definition turnTransitionText (cs : CombatState) (nextRound : Z)
    (nextEntityID : string) (nextEntity : Entity) : string :=
  "Turn Transition - Round " +:+ fmt_d nextRound +:+ nl
    +:+ nl
    +:+ "Current State:" +:+ nl
    +:+ "- Current Turn: " +:+ fmt_d (GoInt.add (CurrentTurn cs) 1) +:+ "/" +:+ fmt_d (len (TurnOrder cs)) +:+ nl
    +:+ "- Next Entity: " +:+ Name nextEntity +:+ " (ID: " +:+ nextEntityID +:+ ")" +:+ nl
    +:+ "- Next Entity HP: " +:+ fmt_d (CurrentHP nextEntity) +:+ "/" +:+ fmt_d (MaxHP nextEntity) +:+ nl
    +:+ nl
    +:+ "Turn Transition Checklist:" +:+ nl
    +:+ "1. End current turn effects:" +:+ nl
    +:+ "   - Check for end-of-turn condition expirations" +:+ nl
    +:+ "   - Process any ongoing damage or healing" +:+ nl
    +:+ nl
    +:+ "2. Advance to next turn using next_turn tool" +:+ nl
    +:+ nl
    +:+ "3. Start-of-turn effects for " +:+ Name nextEntity +:+ ":" +:+ nl
    +:+ "   - Reset legendary actions (if applicable)" +:+ nl
    +:+ "   - Decrement condition durations" +:+ nl
    +:+ "   - Apply regeneration (if applicable)" +:+ nl
    +:+ "   - Check for start-of-turn triggers" +:+ nl
    +:+ nl
    +:+ "4. Present combat status:" +:+ nl
    +:+ "   - Current entity's available actions" +:+ nl
    +:+ "   - Remaining resources (legendary actions, abilities)" +:+ nl
    +:+ "   - Active conditions" +:+ nl
    +:+ "   - Nearby threats and allies" +:+ nl
    +:+ nl
    +:+ "Use the next_turn tool to handle this automatically." +:+ nl
    +:+ nl
    +:+ "Combat Status Summary:" +:+ nl.

(** [handleTurnTransitionPrompt]. [tools.GetCombatState] is not among the
    sources; its result is the argument [cs], [None] standing for [nil]. *)
Definition handleTurnTransitionPrompt (rt : Runtime) (cs : option CombatState)
  : prompt_outcome :=
  match cs with
  | None => PromptError "combat state not initialized"
  | Some cs =>
    if len (TurnOrder cs) =? 0 then PromptPanic "integer divide by zero"
    else
      let nextTurn :=
        GoInt.wrap (Z.rem (GoInt.add (CurrentTurn cs) 1) (len (TurnOrder cs))) in
      let nextRound := RoundNumber cs in
      let nextRound := if nextTurn =? 0 then GoInt.add nextRound 1 else nextRound in
      match index (TurnOrder cs) nextTurn with
      | None => PromptPanic "index out of range"
      | Some nextEntityID =>
        match Entities cs !! nextEntityID with
        | None => PromptPanic "invalid memory address or nil pointer dereference"
        | Some nextEntity =>
          let content := turnTransitionText cs nextRound nextEntityID nextEntity in
          match promptStatus rt (Entities cs) (TurnOrder cs) content with
          | None => PromptPanic "invalid memory address or nil pointer dereference"
          | Some content =>
            PromptResult "Complete turn transition management" content
          end
        end
      end
  end.

(** ** Runs of calls *)

(** [n] successive calls of [next_turn] with the outputs they returned,
    oldest first; [None] as soon as one of them does not return. *)
Fixpoint next_turns_log (rt : Runtime) (n : nat) (st : CombatState)
  : option (CombatState * list NextTurnOutput.t) :=
  match n with
  | O => Some (st, [])
  | S n =>
    match handleNextTurn rt st with
    | Returned st out =>
      match next_turns_log rt n st with
      | Some (st', outs) => Some (st', out :: outs)
      | None => None
      end
    | _ => None
    end
  end.

(** The outcomes of a sequence of tool calls, each made on the store the
    previous one left, each with the runtime choices paired with it. *)
Fixpoint run (calls : list (Runtime * request)) (st : CombatState)
  : list (outcome response) :=
  match calls with
  | [] => []
  | (rt, req) :: calls =>
    let o := call_tool rt st req in
    o :: run calls (final_state o)
  end.

(** The store a sequence of calls leaves. *)
Definition run_state (calls : list (Runtime * request)) (st : CombatState)
  : CombatState :=
  fold_left (fun st '(rt, req) => final_state (call_tool rt st req)) calls st.

Definition is_panic {A} (o : outcome A) : bool :=
  match o with
  | Panicked _ _ => true
  | _ => false
  end.

Definition is_start_combat (req : request) : bool :=
  match req with
  | start_combat _ => true
  | _ => false
  end.

(** How many of the outputs announce [id] as the current entity. *)
Definition turns_taken (id : string) (outs : list NextTurnOutput.t) : Z :=
  len (filter (fun out => NextTurnOutput.CurrentEntityID out = id) outs).

(** The message the condition loop appends when a condition ends. *)
Definition endedMessage (condition : string) : string :=
  "Condition '" +:+ condition +:+ "' ended".

(** The conditions of an entry list whose counter the loop brings to 0. *)
Definition expiring (entries : list (string * Z)) : list string :=
  (filter (fun entry => tick entry.2 = None) entries).*1.

(** ** What a call can do to one entity *)

(** The ways in which a call other than [start_combat] can leave an
    entity of the encounter: untouched, or with the one field the handler
    assigns. *)
Inductive entity_step : request -> Entity -> Entity -> Prop :=
| step_none req e : entity_step req e e
| step_damage i e hp :
    0 <= hp -> entity_step (apply_damage i) e (with_CurrentHP hp e)
| step_healing i e hp :
    hp <= MaxHP e -> entity_step (apply_healing i) e (with_CurrentHP hp e)
| step_condition i e :
    entity_step (add_condition i) e
      (with_Conditions
         (<[AddConditionInput.Condition i := AddConditionInput.Duration i]>
            (Conditions e)) e)
| step_save i e :
    0 < LegendaryResistances e ->
    entity_step (make_saving_throw i) e
      (with_LegendaryResistances (GoInt.sub (LegendaryResistances e) 1) e)
| step_legendary i e :
    LegendaryActionInput.Cost i <= LegendaryActions e ->
    entity_step (use_legendary_action i) e
      (with_LegendaryActions
         (GoInt.sub (LegendaryActions e) (LegendaryActionInput.Cost i)) e)
| step_resource i e :
    entity_step (track_resource i) e
      (with_Resources
         (<[TrackResourceInput.ResourceName i := TrackResourceInput.CurrentValue i]>
            (Resources e)) e)
| step_turn e : entity_step next_turn e (startOfTurn e).

(** The legendary resistances of every entity are between 0 and 3. *)
Definition resistances_bounded (st : CombatState) : Prop :=
  map_Forall (fun _ e => 0 <= LegendaryResistances e <= 3) (Entities st).

(** The legendary actions of every entity are between 0 and their
    maximum, which is at most 3. *)
Definition actions_bounded (st : CombatState) : Prop :=
  map_Forall
    (fun _ e => 0 <= LegendaryActions e <= MaxLegendaryActions e
                /\ MaxLegendaryActions e <= 3)
    (Entities st).

(** A legendary action is asked at a cost that is not negative. *)
Definition cost_not_negative (req : request) : Prop :=
  match req with
  | use_legendary_action i => 0 <= LegendaryActionInput.Cost i
  | _ => True
  end.

(** A [start_combat] request brings at least one entity (and no more
    than a slice can hold). *)
Definition brings_entities (call : Runtime * request) : Prop :=
  match call.2 with
  | start_combat i =>
      StartCombatInput.Entities i <> []
      /\ len (StartCombatInput.Entities i) <= GoInt.max_int
  | _ => True
  end.

(** What is left of a counter after [k] turns of its bearer. *)
Definition countdown (k : Z) (d : Z) : option Z :=
  if decide (k < d) then Some (d - k) else None.

(** ** A concrete runtime *)

(** Insertion sort, stable: one behaviour [sort.Slice] may have. *)
Fixpoint insert_by {A} (less : A -> A -> bool) (x : A) (l : list A) : list A :=
  match l with
  | [] => [x]
  | y :: l' => if less y x then y :: insert_by less x l' else x :: l
  end.

Definition insertion_sort {A} (less : A -> A -> bool) (l : list A) : list A :=
  foldr (insert_by less) [] l.

(** A map walked in stdpp's key order, or in the reverse of it. *)
Definition walk (reversed : bool) {A} (m : gmap string A) : list (string * A) :=
  if reversed then reverse (map_to_list m) else map_to_list m.

Lemma walk_perm reversed A (m : gmap string A) :
  walk reversed m ≡ₚ map_to_list m.
Proof. destruct reversed; simpl; [apply reverse_Permutation | done]. Qed.

Lemma insert_by_perm {A} (less : A -> A -> bool) x l :
  insert_by less x l ≡ₚ x :: l.
Proof.
  induction l as [|y l IH]; simpl; [done|].
  destruct (less y x); [|done].
  rewrite IH. apply perm_swap.
Qed.

Lemma insertion_sort_perm A (less : A -> A -> bool) l :
  insertion_sort less l ≡ₚ l.
Proof.
  induction l as [|x l IH]; simpl; [done|].
  by rewrite insert_by_perm, IH.
Qed.

Lemma insert_by_sorted {A} (less : A -> A -> bool) x l :
  strict_weak less ->
  StronglySorted (fun a b => less b a = false) l ->
  StronglySorted (fun a b => less b a = false) (insert_by less x l).
Proof.
  intros [Hasym Htrans]. induction l as [|y l IH]; simpl; intros Hs.
  - repeat constructor.
  - apply StronglySorted_inv in Hs as [Hl Hy].
    destruct (less y x) eqn:Hyx.
    + constructor; [by apply IH|].
      rewrite insert_by_perm. constructor; [by apply Hasym | done].
    + constructor; [by constructor|].
      constructor; [done|].
      eapply Forall_impl; [exact Hy|]. intros z Hz. simpl in Hz.
      by apply (Htrans z y x).
Qed.

Lemma insertion_sort_sorted A (less : A -> A -> bool) l :
  strict_weak less ->
  StronglySorted (fun a b => less b a = false) (insertion_sort less l).
Proof.
  intros Hless. induction l as [|x l IH]; simpl; [constructor|].
  by apply insert_by_sorted.
Qed.

Lemma mod_range r n : 0 < n -> 0 <= r mod n < n.
Proof. intros Hn. apply Z.mod_pos_bound, Hn. Qed.

(** The runtime that walks maps in key order ([reversed = false]) or in
    reverse key order, sorts by insertion and rolls [r mod n]. *)
Definition runtime (reversed : bool) (r : Z) : Runtime :=
  mkRuntime (@walk reversed) (walk_perm reversed)
    (@insertion_sort) insertion_sort_perm insertion_sort_sorted
    (fun n => r mod n) (mod_range r).

(** ** Example encounters *)

(** The two combatants of the specification's scenarios, and a third one
    that ties with the second on initiative. *)
Definition dragon : EntityInit.t :=
  EntityInit.mk "A" "Dragon" 15 546 22 true "Ancient Red Dragon".
Definition fighter : EntityInit.t :=
  EntityInit.mk "B" "Bob" 10 30 14 false "".
Definition rogue : EntityInit.t :=
  EntityInit.mk "C" "Cat" 10 25 15 false "".

(** The encounter of [dragon] and [fighter], just started. *)
Definition duel : CombatState :=
  final_state
    (handleStartCombat (runtime false 6) registered
       (StartCombatInput.mk [fighter; dragon])).


(** [duel] after the fighter was stunned for three turns and knocked
    prone for two. *)
Definition duel_conditions : CombatState :=
  final_state
    (handleAddCondition
       (final_state
          (handleAddCondition duel (AddConditionInput.mk "B" "stunned" 3)))
       (AddConditionInput.mk "B" "prone" 2)).

(** * Properties *)

(** ** Integer arithmetic *)

Lemma wrap_id z : GoInt.ok z -> GoInt.wrap z = z.
Proof.
  unfold GoInt.ok, GoInt.wrap, GoInt.min_int, GoInt.max_int, GoInt.modulus.
  intros Hz. rewrite Z.mod_small; lia.
Qed.

Lemma wrap_ok z : GoInt.ok (GoInt.wrap z).
Proof.
  unfold GoInt.ok, GoInt.wrap, GoInt.min_int, GoInt.max_int, GoInt.modulus.
  pose proof (Z.mod_pos_bound (z - -9223372036854775808) 18446744073709551616).
  lia.
Qed.

Lemma div2_quot d : GoInt.ok d -> GoInt.div d 2 = Z.quot d 2.
Proof.
  intros Hd. unfold GoInt.div. apply wrap_id.
  unfold GoInt.ok, GoInt.min_int, GoInt.max_int in *.
  Z.to_euclidean_division_equations. lia.
Qed.


Ltac int_range :=
  unfold GoInt.ok, GoInt.min_int, GoInt.max_int in *; simpl in *; lia.

(** ** The scenarios of the specification *)

Example scenario_start_combat :
  TurnOrder duel = ["A"; "B"]
  /\ (LegendaryResistances <$> Entities duel !! "A") = Some 3
  /\ (MaxLegendaryActions <$> Entities duel !! "A") = Some 3
  /\ RoundNumber duel = 1 /\ CurrentTurn duel = 0.
Proof. vm_compute. repeat split. Qed.

Example scenario_damage :
  exists st,
    handleApplyDamage duel (ApplyDamageInput.mk "B" 20 "slashing") =
    Returned st
      (ApplyDamageOutput.mk 20 10 "Bob takes 20 slashing damage. 10 HP remaining."
         false).
Proof. eexists. vm_compute. reflexivity. Qed.

Example scenario_legendary_actions_spent :
  exists st msg1 msg2,
    handleLegendaryAction duel (LegendaryActionInput.mk "A" "Wing Attack" 3) =
      Returned st (LegendaryActionOutput.mk true 0 msg1)
    /\ handleLegendaryAction st (LegendaryActionInput.mk "A" "Tail Attack" 1) =
      Returned st (LegendaryActionOutput.mk false 0 msg2).
Proof. do 3 eexists. split; [vm_compute; reflexivity | vm_compute; reflexivity]. Qed.

Example scenario_two_turns :
  exists st,
    next_turns (runtime false 6) 2 duel = Some st
    /\ CurrentTurn st = 0 /\ RoundNumber st = 2.
Proof. eexists. split; [vm_compute; reflexivity|]. split; reflexivity. Qed.

(** ** Damage *)




(** ** Saving throws *)

(** C6: [make_saving_throw] on an existing entity rolls [rand.Intn(20) + 1],
    adds the bonus and compares the total with the DC. A failed roll of an
    entity with a legendary resistance left is turned into a success, is
    flagged and costs exactly one resistance: the entity found under its
    id in the encounter afterwards has one resistance less and is
    otherwise the same, and that is the only change to the store. With
    none left the failure stands, the count stays 0 and the store is as it
    was; a successful roll consumes nothing and leaves the store as it
    was. *)
Theorem saving_throw_legendary_resistance (rt : Runtime) (st : CombatState)
    (input : SavingThrowInput.t) (entity : Entity) :
  Entities st !! SavingThrowInput.EntityID input = Some entity ->
  LegendaryResistances entity <= GoInt.max_int ->
  exists out st' entity',
    handleSavingThrow rt st input = Returned st' out
    /\ Entities st' !! SavingThrowInput.EntityID input = Some entity'
    /\ (forall id',
          id' <> SavingThrowInput.EntityID input ->
          Entities st' !! id' = Entities st !! id')
    /\ TurnOrder st' = TurnOrder st /\ CurrentTurn st' = CurrentTurn st
    /\ RoundNumber st' = RoundNumber st
    /\ SavingThrowOutput.Roll out = rand_Intn rt 20 + 1
    /\ 1 <= SavingThrowOutput.Roll out <= 20
    /\ SavingThrowOutput.Total out =
         SavingThrowOutput.Roll out + SavingThrowOutput.Bonus out
    /\ SavingThrowOutput.RemainingLegendaryResists out =
         LegendaryResistances entity'
    /\ (SavingThrowOutput.Total out < SavingThrowInput.DC input ->
        1 <= LegendaryResistances entity ->
        SavingThrowOutput.Success out = true
        /\ SavingThrowOutput.UsedLegendaryResistance out = true
        /\ LegendaryResistances entity' = LegendaryResistances entity - 1
        /\ entity' =
             with_LegendaryResistances (LegendaryResistances entity - 1) entity
        /\ SavingThrowOutput.RemainingLegendaryResists out =
             LegendaryResistances entity - 1
        /\ st' = store (SavingThrowInput.EntityID input)
                   (with_LegendaryResistances
                      (LegendaryResistances entity - 1) entity) st)
    /\ (SavingThrowOutput.Total out < SavingThrowInput.DC input ->
        LegendaryResistances entity = 0 ->
        SavingThrowOutput.Success out = false
        /\ SavingThrowOutput.UsedLegendaryResistance out = false
        /\ LegendaryResistances entity' = 0
        /\ entity' = entity
        /\ SavingThrowOutput.RemainingLegendaryResists out = 0
        /\ st' = st)
    /\ (SavingThrowInput.DC input <= SavingThrowOutput.Total out ->
        SavingThrowOutput.Success out = true
        /\ SavingThrowOutput.UsedLegendaryResistance out = false
        /\ LegendaryResistances entity' = LegendaryResistances entity
        /\ entity' = entity
        /\ SavingThrowOutput.RemainingLegendaryResists out =
             LegendaryResistances entity
        /\ st' = st).
Proof.
  intros Hlook Hmax. unfold handleSavingThrow. rewrite Hlook.
  pose proof (rand_Intn_range rt 20 ltac:(lia)) as Hr.
  assert (Hroll : GoInt.add (rand_Intn rt 20) 1 = rand_Intn rt 20 + 1).
  { apply wrap_id. int_range. }
  rewrite Hroll.
  set (bonus := if IsMonster entity then 3 else 0).
  assert (Hb : 0 <= bonus <= 3) by (subst bonus; destruct (IsMonster entity); lia).
  assert (Htotal : GoInt.add (rand_Intn rt 20 + 1) bonus = rand_Intn rt 20 + 1 + bonus).
  { apply wrap_id. int_range. }
  rewrite Htotal.
  destruct (Z.geb_spec (rand_Intn rt 20 + 1 + bonus) (SavingThrowInput.DC input))
    as [Hsucc|Hfail]; simpl.
  - do 2 eexists. exists entity. split; [reflexivity|]. simpl.
    split; [done|]. split; [done|]. split; [done|]. split; [done|].
    split; [done|]. split; [done|]. split; [lia|]. split; [done|].
    split; [done|]. split; [intros; lia|]. split; [intros; lia|done].
  - destruct (Z.gtb_spec (LegendaryResistances entity) 0) as [Hpos|Hzero]; simpl.
    + assert (Hsub : GoInt.sub (LegendaryResistances entity) 1
                     = LegendaryResistances entity - 1).
      { apply wrap_id. int_range. }
      rewrite Hsub. do 2 eexists.
      exists (with_LegendaryResistances (LegendaryResistances entity - 1) entity).
      split; [reflexivity|]. simpl.
      split; [by rewrite lookup_insert_eq|].
      split; [by intros id' Hid'; rewrite lookup_insert_ne|].
      split; [done|]. split; [done|]. split; [done|].
      split; [done|]. split; [lia|]. split; [done|]. split; [done|].
      split; [done|]. split; [intros; lia|intros; lia].
    + do 2 eexists. exists entity. split; [reflexivity|]. simpl.
      split; [done|]. split; [done|]. split; [done|]. split; [done|].
      split; [done|]. split; [done|]. split; [lia|]. split; [done|].
      split; [done|]. split; [intros; lia|]. split; [|intros; lia].
      intros _ Hz. by rewrite Hz.
Qed.

Lemma saving_throw_legendary_resistance_witness :
  exists out st' entity',
    handleSavingThrow (runtime false 6) duel (SavingThrowInput.mk "A" "DEX" 15) =
      Returned st' out
    /\ Entities st' !! "A" = Some entity'
    /\ SavingThrowOutput.Total out = 10
    /\ SavingThrowOutput.Success out = true
    /\ SavingThrowOutput.UsedLegendaryResistance out = true
    /\ LegendaryResistances entity' = 2.
Proof.
  destruct (saving_throw_legendary_resistance (runtime false 6) duel
              (SavingThrowInput.mk "A" "DEX" 15) (newEntity dragon))
    as (out & st' & entity' & Hcall & Hent & _ & _ & _ & _ & Hroll & _
        & Htotal & _ & Hused & _).
  - vm_compute. reflexivity.
  - vm_compute. discriminate.
  - exists out, st', entity'. split; [exact Hcall|]. split; [exact Hent|].
    assert (Ht : SavingThrowOutput.Total out = 10).
    { rewrite Htotal, Hroll.
      injection Hcall as _ Hout. rewrite <- Hout. reflexivity. }
    split; [exact Ht|].
    destruct Hused as (Hs & Hu & Hl & _).
    + rewrite Ht. simpl. lia.
    + simpl. lia.
    + split; [exact Hs|]. split; [exact Hu|]. rewrite Hl. reflexivity.
Defined.

(** ** Legendary actions *)

(** C7: on an existing monster whose remaining legendary actions are below
    the cost, [use_legendary_action] returns success=false with the
    remaining count and leaves the store as it was, so that the monster
    found under its id still has that count; otherwise it returns
    success=true with the count lowered by the cost, and the monster found
    under its id in the encounter afterwards has that lowered count and is
    otherwise the same, no other entity and nothing else of the store
    being touched; on a missing id it returns an error and leaves the
    store as it was. The new count is the 64-bit difference, which is the
    count less the cost whenever that fits an [int], as it does for every
    cost that is not negative. *)
Theorem legendary_action_spending (st : CombatState)
    (input : LegendaryActionInput.t) :
  let id := LegendaryActionInput.MonsterID input in
  let c := LegendaryActionInput.Cost input in
  (forall monster,
     Entities st !! id = Some monster -> LegendaryActions monster < c ->
     exists msg st',
       handleLegendaryAction st input =
       Returned st' (LegendaryActionOutput.mk false (LegendaryActions monster) msg)
       /\ st' = st
       /\ Entities st' !! id = Some monster)
  /\ (forall monster,
        Entities st !! id = Some monster -> c <= LegendaryActions monster ->
        let remaining := GoInt.sub (LegendaryActions monster) c in
        (exists msg st' monster',
           handleLegendaryAction st input =
           Returned st' (LegendaryActionOutput.mk true remaining msg)
           /\ st' = store id (with_LegendaryActions remaining monster) st
           /\ Entities st' !! id = Some monster'
           /\ LegendaryActions monster' = remaining
           /\ (GoInt.ok (LegendaryActions monster - c) ->
               LegendaryActions monster' = LegendaryActions monster - c)
           /\ (0 <= c -> LegendaryActions monster <= 9223372036854775807 ->
               LegendaryActions monster' = LegendaryActions monster - c)
           /\ monster' = with_LegendaryActions remaining monster
           /\ (forall id', id' <> id -> Entities st' !! id' = Entities st !! id')
           /\ TurnOrder st' = TurnOrder st /\ CurrentTurn st' = CurrentTurn st
           /\ RoundNumber st' = RoundNumber st)
        /\ (GoInt.ok (LegendaryActions monster - c) ->
            remaining = LegendaryActions monster - c))
  /\ (Entities st !! id = None ->
      exists err, handleLegendaryAction st input = Failed st err).
Proof.
  intros id c. unfold handleLegendaryAction. fold id c. split; [|split].
  - intros monster Hlook Hlt. rewrite Hlook.
    destruct (Z.ltb_spec (LegendaryActions monster) c); [|lia].
    do 2 eexists. split; [reflexivity|]. by split.
  - intros monster Hlook Hle. rewrite Hlook. split.
    + destruct (Z.ltb_spec (LegendaryActions monster) c); [lia|].
      do 3 eexists. split; [reflexivity|]. split; [reflexivity|]. simpl.
      split; [by rewrite lookup_insert_eq|]. split; [done|].
      split; [by intros Hfit; apply wrap_id|].
      split; [by intros Hc Hmax; apply wrap_id; int_range|]. split; [done|].
      split; [by intros id' Hid'; rewrite lookup_insert_ne|]. done.
    + intros Hfit. by apply wrap_id.
  - intros ->. by eexists.
Qed.

(** ** Missing entities *)

(** C8: a request that names an entity id absent from the encounter ends
    in an error, and the store it leaves is the store it found. *)
Theorem missing_entity_fails (rt : Runtime) (st : CombatState) (req : request)
    (id : string) :
  request_entity req = Some id ->
  Entities st !! id = None ->
  exists err, call_tool rt st req = Failed st err.
Proof.
  intros Hreq Hnone.
  destruct req as [i| |i|i|i|i|i|i]; simpl in Hreq; try discriminate;
    injection Hreq as <-; simpl.
  - unfold handleApplyDamage. rewrite Hnone. by eexists.
  - unfold handleApplyHealing. rewrite Hnone. by eexists.
  - unfold handleAddCondition. rewrite Hnone. by eexists.
  - unfold handleSavingThrow. rewrite Hnone. by eexists.
  - unfold handleLegendaryAction. rewrite Hnone. by eexists.
  - unfold handleTrackResource. rewrite Hnone. by eexists.
Qed.

Lemma missing_entity_fails_witness :
  exists err,
    call_tool (runtime false 6) duel
      (track_resource (TrackResourceInput.mk "Z" "rage" 2)) = Failed duel err.
Proof.
  apply (missing_entity_fails (runtime false 6) duel
           (track_resource (TrackResourceInput.mk "Z" "rage" 2)) "Z").
  - reflexivity.
  - vm_compute. reflexivity.
Defined.

(** ** Loops over slices and maps *)

Section loops.
Context (rt : Runtime).

Lemma range_lookup {A} (m : gmap string A) k v :
  (k, v) ∈ range rt m <-> m !! k = Some v.
Proof. rewrite (range_perm rt). apply elem_of_map_to_list. Qed.

Lemma range_NoDup {A} (m : gmap string A) : NoDup (range rt m).*1.
Proof. rewrite (range_perm rt). apply NoDup_fst_map_to_list. Qed.

Lemma range_keys {A} (m : gmap string A) k :
  k ∈ (range rt m).*1 <-> is_Some (m !! k).
Proof.
  rewrite list_elem_of_fmap. split.
  - intros [[k' v] [-> Hin]]. apply range_lookup in Hin. by eexists.
  - intros [v Hv]. exists (k, v). split; [done|]. by apply range_lookup.
Qed.

Lemma range_empty {A} : range rt (∅ : gmap string A) = [].
Proof.
  apply Permutation_nil_r. rewrite (range_perm rt).
  by rewrite map_to_list_empty.
Qed.
End loops.

(** A loop that appends one element per iteration. *)
Lemma fold_left_snoc {A B} (f : list B -> A -> list B) (g : A -> B) l acc :
  (forall acc x, f acc x = acc ++ [g x]) ->
  fold_left f l acc = acc ++ (g <$> l).
Proof.
  intros Hf. revert acc. induction l as [|x l IH]; intros acc; simpl.
  - by rewrite app_nil_r.
  - by rewrite IH, Hf, <- app_assoc.
Qed.

(** A loop that stores one map entry per iteration. *)
Lemma fold_left_insert_notin {A B}
    (f : gmap string B -> string * A -> gmap string B) (g : A -> B) l m k :
  (forall m k v, f m (k, v) = <[k := g v]> m) ->
  k ∉ l.*1 -> fold_left f l m !! k = m !! k.
Proof.
  intros Hf. revert m. induction l as [|[k' v] l IH]; intros m Hk; simpl; [done|].
  rewrite fmap_cons, not_elem_of_cons in Hk. destruct Hk as [Hne Hk].
  rewrite IH, Hf by done. by rewrite lookup_insert_ne.
Qed.

Lemma fold_left_insert_in {A B}
    (f : gmap string B -> string * A -> gmap string B) (g : A -> B) l m k v :
  (forall m k v, f m (k, v) = <[k := g v]> m) ->
  NoDup l.*1 -> (k, v) ∈ l -> fold_left f l m !! k = Some (g v).
Proof.
  intros Hf. revert m. induction l as [|[k' v'] l IH]; intros m Hnd Hin; simpl.
  - by apply elem_of_nil in Hin.
  - rewrite fmap_cons in Hnd. apply NoDup_cons in Hnd as [Hk' Hnd].
    apply elem_of_cons in Hin as [Heq|Hin].
    + injection Heq as <- <-.
      rewrite (fold_left_insert_notin f g) by done.
      by rewrite Hf, lookup_insert_eq.
    + by apply IH.
Qed.

Lemma buildStatus_fmap rt (entities : gmap string Entity) :
  buildStatus rt entities = statusLine rt <$> entities.
Proof.
  apply map_eq. intros id. unfold buildStatus. rewrite lookup_fmap.
  destruct (entities !! id) as [e|] eqn:Hid; simpl.
  - apply (fold_left_insert_in _ (statusLine rt)); [done|apply range_NoDup|].
    by apply range_lookup.
  - rewrite (fold_left_insert_notin _ (statusLine rt)); [done..|].
    rewrite range_keys, Hid. by intros [? ?].
Qed.

Lemma condList_keys rt e : condList rt e = (range rt (Conditions e)).*1.
Proof.
  unfold condList. rewrite (fold_left_snoc _ fst); [done|].
  by intros acc [c d].
Qed.

Lemma condList_elem rt e c : c ∈ condList rt e <-> is_Some (Conditions e !! c).
Proof. rewrite condList_keys. apply range_keys. Qed.

(** One iteration of the condition loop, on an entry the map still holds. *)
Lemma processCondition_lookup conds effects c d k :
  conds !! c = Some d ->
  (processCondition (conds, effects) (c, d)).1 !! k =
  if decide (k = c) then tick d else conds !! k.
Proof.
  intros Hc. unfold processCondition, tick.
  destruct (decide (k = c)) as [->|Hne]; destruct (d >? 0); try done.
  - rewrite lookup_insert_eq, Hc. cbn [default from_option id].
    destruct (GoInt.sub d 1 =? 0); cbn [fst].
    + by rewrite lookup_delete_eq.
    + by rewrite lookup_insert_eq.
  - rewrite lookup_insert_eq, Hc. cbn [default from_option id].
    destruct (GoInt.sub d 1 =? 0); cbn [fst].
    + by rewrite lookup_delete_ne, lookup_insert_ne.
    + by rewrite lookup_insert_ne.
Qed.

Lemma processCondition_loop l : forall conds effects,
  NoDup l.*1 ->
  (forall k v, (k, v) ∈ l -> conds !! k = Some v) ->
  forall k,
    (fold_left processCondition l (conds, effects)).1 !! k =
    if decide (k ∈ l.*1) then conds !! k ≫= tick else conds !! k.
Proof.
  induction l as [|[c d] l IH]; intros conds effects Hnd Hl k; cbn [fold_left].
  - rewrite decide_False; [done|]. apply not_elem_of_nil.
  - rewrite fmap_cons in Hnd. apply NoDup_cons in Hnd as [Hc Hnd].
    assert (Hcd : conds !! c = Some d) by (apply Hl; left).
    pose proof (fun k => processCondition_lookup conds effects c d k Hcd) as Hstep.
    destruct (processCondition (conds, effects) (c, d)) as [conds1 effects1].
    cbn [fst] in Hstep. rewrite IH; [|done|].
    + rewrite !Hstep. destruct (decide (k = c)) as [->|Hne].
      * rewrite decide_False by done. rewrite decide_True by left.
        by rewrite Hcd.
      * destruct (decide (k ∈ l.*1)) as [Hin|Hnin].
        -- by rewrite decide_True by (by right).
        -- rewrite decide_False; [done|].
           intros Hin. apply elem_of_cons in Hin as [?|?]; done.
    + intros k' v' Hin. rewrite Hstep. rewrite decide_False.
      * apply Hl. by right.
      * intros ->. apply Hc. apply list_elem_of_fmap. by exists (c, v').
Qed.

(** The condition loop leaves the map [omap tick] of the map it found,
    whatever the order of the walk. *)
Lemma processConditions_entity rt current effects :
  (processConditions rt (current, effects)).1 =
  with_Conditions (omap tick (Conditions current)) current.
Proof.
  unfold processConditions.
  pose proof (processCondition_loop (range rt (Conditions current))
                (Conditions current) effects (range_NoDup rt _)) as Hloop.
  destruct (fold_left processCondition (range rt (Conditions current))
              (Conditions current, effects)) as [conds effects'].
  simpl in *. f_equal. apply map_eq. intros k.
  rewrite Hloop, lookup_omap.
  - case_decide as Hk; [done|].
    rewrite range_keys in Hk. apply eq_None_not_Some in Hk. by rewrite Hk.
  - intros k' v'. apply range_lookup.
Qed.

(** ** Starting an encounter *)

Lemma createEntities_snoc l e :
  createEntities (l ++ [e]) = <[EntityInit.ID e := newEntity e]> (createEntities l).
Proof. unfold createEntities. by rewrite fold_left_app. Qed.

(** Every entity of a fresh encounter was built from a definition of the
    input carrying its id. *)
Lemma createEntities_lookup l id ent :
  createEntities l !! id = Some ent ->
  exists e, e ∈ l /\ EntityInit.ID e = id /\ ent = newEntity e.
Proof.
  induction l as [|e l IH] using rev_ind; [done|].
  rewrite createEntities_snoc.
  destruct (decide (EntityInit.ID e = id)) as [<-|Hne].
  - rewrite lookup_insert_eq. intros [= <-]. exists e.
    split; [|done]. apply elem_of_app. right. by left.
  - rewrite lookup_insert_ne by done. intros Hl.
    destruct (IH Hl) as (e' & Hin & Hid & Hent). exists e'.
    split; [|done]. apply elem_of_app. by left.
Qed.

Lemma createEntities_ids l id :
  is_Some (createEntities l !! id) <-> id ∈ EntityInit.ID <$> l.
Proof.
  induction l as [|e l IH] using rev_ind.
  - unfold createEntities. simpl. rewrite lookup_empty.
    split; [by intros [? ?] | by intros ?%elem_of_nil].
  - rewrite createEntities_snoc, fmap_app, elem_of_app, <- IH.
    rewrite lookup_insert_is_Some. simpl. rewrite list_elem_of_singleton.
    destruct (decide (EntityInit.ID e = id)) as [Heq|Hne].
    + split; [by right | by left].
    + split; [intros [?|[_ ?]]; [done | by left] | intros [?|?]; [by right | done]].
Qed.

Lemma createEntities_size l :
  NoDup (EntityInit.ID <$> l) -> size (createEntities l) = length l.
Proof.
  induction l as [|e l IH] using rev_ind; [done|].
  rewrite fmap_app. intros Hnd. apply NoDup_app in Hnd as (Hl & Hfresh & _).
  rewrite createEntities_snoc, length_app. simpl.
  rewrite map_size_insert_None.
  - rewrite IH by done. lia.
  - apply eq_None_not_Some. rewrite createEntities_ids. intros Hin.
    apply (Hfresh _ Hin). by left.
Qed.

Lemma loadMonsterStats_hp e :
  CurrentHP (loadMonsterStats e) = CurrentHP e /\
  MaxHP (loadMonsterStats e) = MaxHP e.
Proof. unfold loadMonsterStats. by destruct (String.eqb _ _). Qed.

Lemma newEntity_hp e :
  CurrentHP (newEntity e) = EntityInit.HP e /\
  MaxHP (newEntity e) = EntityInit.HP e.
Proof.
  unfold newEntity. destruct (_ && _); [|done]. apply loadMonsterStats_hp.
Qed.

Lemma initLess_strict_weak : strict_weak initLess.
Proof.
  unfold initLess. split.
  - intros a b. rewrite Z.gtb_gt. intros Hab.
    destruct (Z.gtb_spec (initPair.init b) (initPair.init a)); [lia|done].
  - intros a b c Hab Hbc.
    destruct (Z.gtb_spec (initPair.init a) (initPair.init b)); [done|].
    destruct (Z.gtb_spec (initPair.init b) (initPair.init c)); [done|].
    destruct (Z.gtb_spec (initPair.init a) (initPair.init c)); [lia|done].
Qed.

Lemma computeTurnOrder_sorted_pairs rt entities :
  computeTurnOrder rt entities =
  initPair.id <$> sort_Slice rt initLess (pairOf <$> range rt entities).
Proof.
  unfold computeTurnOrder.
  rewrite (fold_left_snoc _ initPair.id) by done.
  rewrite (fold_left_snoc _ pairOf) by (by intros acc [id e]).
  done.
Qed.

(** The turn order lists every id of the encounter once. *)
Lemma computeTurnOrder_perm rt entities :
  computeTurnOrder rt entities ≡ₚ (map_to_list entities).*1.
Proof.
  rewrite computeTurnOrder_sorted_pairs, (sort_Slice_perm rt).
  rewrite <- list_fmap_compose, (range_perm rt).
  apply Permutation_refl', list_fmap_ext. by intros ? [] ?.
Qed.

Lemma computeTurnOrder_NoDup rt entities : NoDup (computeTurnOrder rt entities).
Proof. rewrite computeTurnOrder_perm. apply NoDup_fst_map_to_list. Qed.

Lemma computeTurnOrder_elem rt entities id :
  id ∈ computeTurnOrder rt entities <-> is_Some (entities !! id).
Proof.
  rewrite computeTurnOrder_perm, list_elem_of_fmap. split.
  - intros [[id' e] [-> Hin]]. apply elem_of_map_to_list in Hin. by eexists.
  - intros [e He]. exists (id, e). split; [done|]. by apply elem_of_map_to_list.
Qed.

Lemma computeTurnOrder_length rt entities :
  length (computeTurnOrder rt entities) = size entities.
Proof.
  rewrite computeTurnOrder_perm, length_fmap. apply length_map_to_list.
Qed.

(** A sorted list stays sorted under a map that carries the order over,
    element by element. *)
Lemma StronglySorted_fmap_elem {A B} (R : A -> A -> Prop) (R' : B -> B -> Prop)
    (f : A -> B) l :
  (forall a b, a ∈ l -> b ∈ l -> R a b -> R' (f a) (f b)) ->
  StronglySorted R l -> StronglySorted R' (f <$> l).
Proof.
  induction l as [|x l IH]; intros HR Hs; simpl; [constructor|].
  apply StronglySorted_inv in Hs as [Hl Hx]. constructor.
  - apply IH; [|done]. intros a b Ha Hb. apply HR; by right.
  - apply Forall_fmap, Forall_forall. intros y Hy. simpl.
    apply HR; [by left | by right |].
    rewrite Forall_forall in Hx. by apply Hx.
Qed.

(** In a sorted list without repetition the order is strict wherever
    equivalent elements are equal. *)
Lemma StronglySorted_strict {A} (R R' : A -> A -> Prop) l :
  (forall a b, a ∈ l -> b ∈ l -> a <> b -> R a b -> R' a b) ->
  NoDup l -> StronglySorted R l -> StronglySorted R' l.
Proof.
  induction l as [|x l IH]; intros HR Hnd Hs; [constructor|].
  apply StronglySorted_inv in Hs as [Hl Hx].
  apply NoDup_cons in Hnd as [Hnx Hnd]. constructor.
  - apply IH; [|done..]. intros a b Ha Hb. apply HR; by right.
  - apply Forall_forall. intros y Hy.
    apply HR; [by left | by right | by intros -> |].
    rewrite Forall_forall in Hx. by apply Hx.
Qed.

(** Two sorted arrangements of the same elements are the same list when
    the order is antisymmetric on them. *)
Lemma StronglySorted_perm_eq {A} (R : A -> A -> Prop) l1 : forall l2,
  (forall a b, a ∈ l1 -> b ∈ l1 -> R a b -> R b a -> a = b) ->
  StronglySorted R l1 -> StronglySorted R l2 -> l1 ≡ₚ l2 -> l1 = l2.
Proof.
  induction l1 as [|x l1 IH]; intros l2 Ha Hs1 Hs2 Hp.
  - by apply Permutation_nil_l in Hp.
  - destruct l2 as [|y l2]; [by apply Permutation_nil_r in Hp|].
    apply StronglySorted_inv in Hs1 as [Hs1 Hx].
    apply StronglySorted_inv in Hs2 as [Hs2 Hy].
    rewrite Forall_forall in Hx, Hy.
    assert (x = y) as <-.
    { assert (y ∈ x :: l1) as Hy1 by (rewrite Hp; left).
      assert (x ∈ y :: l2) as Hx2 by (rewrite <- Hp; left).
      apply elem_of_cons in Hy1 as [?|Hy1]; [done|].
      apply elem_of_cons in Hx2 as [?|Hx2]; [done|].
      apply Ha; [by left | by right | by apply Hx | by apply Hy]. }
    f_equal. apply IH; [|done..|by apply Permutation_cons_inv in Hp].
    intros a b Hia Hib. apply Ha; by right.
Qed.

Lemma sorted_pair_initiative rt entities p :
  p ∈ sort_Slice rt initLess (pairOf <$> range rt entities) ->
  exists e, entities !! initPair.id p = Some e /\ InitiativeRoll e = initPair.init p.
Proof.
  rewrite (sort_Slice_perm rt), list_elem_of_fmap.
  intros [[id e] [-> Hin]]. apply range_lookup in Hin. by exists e.
Qed.

Lemma computeTurnOrder_descending rt entities :
  StronglySorted
    (fun a b => default 0 (InitiativeRoll <$> entities !! a) >=
                default 0 (InitiativeRoll <$> entities !! b))
    (computeTurnOrder rt entities).
Proof.
  rewrite computeTurnOrder_sorted_pairs.
  eapply StronglySorted_fmap_elem;
    [|apply (sort_Slice_sorted rt), initLess_strict_weak].
  intros a b Ha Hb Hab. simpl in Hab.
  destruct (sorted_pair_initiative rt entities a Ha) as (ea & Hea & Hia).
  destruct (sorted_pair_initiative rt entities b Hb) as (eb & Heb & Hib).
  rewrite Hea, Heb. simpl. rewrite Hia, Hib. unfold initLess in Hab.
  destruct (Z.gtb_spec (initPair.init b) (initPair.init a)); [done|lia].
Qed.

Lemma computeTurnOrder_strict rt entities :
  no_ties entities ->
  StronglySorted
    (fun a b => default 0 (InitiativeRoll <$> entities !! a) >
                default 0 (InitiativeRoll <$> entities !! b))
    (computeTurnOrder rt entities).
Proof.
  intros Hties.
  eapply StronglySorted_strict;
    [|apply computeTurnOrder_NoDup|apply computeTurnOrder_descending].
  intros a b Ha Hb Hne.
  apply computeTurnOrder_elem in Ha as [ea Hea].
  apply computeTurnOrder_elem in Hb as [eb Heb].
  rewrite Hea, Heb. simpl. intros Hab.
  destruct (decide (InitiativeRoll ea = InitiativeRoll eb)) as [Heq|?]; [|lia].
  destruct Hne. by apply (Hties a b ea eb).
Qed.

(** C5, as amended: the turn order [start_combat] returns, which is the
    one it stores, lists every entity of the encounter once and is
    descending by initiative: of two positions, the earlier one never
    holds the smaller initiative. It is strictly descending when no two
    entities of the encounter have the same initiative. *)
Theorem turn_order_descending (rt : Runtime) (st0 : CombatState)
    (input : StartCombatInput.t) :
  exists st out,
    handleStartCombat rt st0 input = Returned st out
    /\ StartCombatOutput.TurnOrder out = TurnOrder st
    /\ TurnOrder st ≡ₚ (map_to_list (Entities st)).*1
    /\ StronglySorted (fun a b => initiative st a >= initiative st b)
         (TurnOrder st)
    /\ (no_ties (Entities st) ->
        StronglySorted (fun a b => initiative st a > initiative st b)
          (TurnOrder st)).
Proof.
  do 2 eexists. split; [reflexivity|]. simpl. split; [done|].
  split; [apply computeTurnOrder_perm|]. split.
  - apply computeTurnOrder_descending.
  - apply computeTurnOrder_strict.
Qed.

(** C5, as stated, fails: two combatants with initiative 10 end up next
    to each other in the turn order, neither strictly above the other. *)
Lemma turn_order_tie_counterexample :
  let st :=
    final_state
      (handleStartCombat (runtime false 6) registered
         (StartCombatInput.mk [fighter; rogue])) in
  TurnOrder st = ["C"; "B"]
  /\ initiative st "C" = 10
  /\ initiative st "B" = 10.
Proof. vm_compute. repeat split. Qed.

(** ** Advancing the turn *)

Lemma advanceTurn_entities st : Entities (advanceTurn st) = Entities st.
Proof. unfold advanceTurn. by destruct (_ >=? _). Qed.

Lemma advanceTurn_order st : TurnOrder (advanceTurn st) = TurnOrder st.
Proof. unfold advanceTurn. by destruct (_ >=? _). Qed.

Lemma advanceTurn_inside st :
  cursor_valid st -> CurrentTurn st + 1 < len (TurnOrder st) ->
  advanceTurn st =
  mkCombatState (Entities st) (TurnOrder st) (CurrentTurn st + 1) (RoundNumber st).
Proof.
  intros (Hcur & Hlen & _) Hin. unfold advanceTurn, GoInt.add.
  rewrite wrap_id by int_range.
  destruct (Z.geb_spec (CurrentTurn st + 1) (len (TurnOrder st))); [lia|done].
Qed.

Lemma advanceTurn_wrap st :
  cursor_valid st -> CurrentTurn st + 1 = len (TurnOrder st) ->
  advanceTurn st =
  mkCombatState (Entities st) (TurnOrder st) 0 (GoInt.add (RoundNumber st) 1).
Proof.
  intros (Hcur & Hlen & _) Hin. unfold advanceTurn, GoInt.add.
  rewrite (wrap_id (CurrentTurn st + 1)) by int_range.
  destruct (Z.geb_spec (CurrentTurn st + 1) (len (TurnOrder st))); [done|lia].
Qed.

Lemma index_Some {A} (l : list A) i :
  0 <= i < len l -> exists x, index l i = Some x /\ x ∈ l.
Proof.
  intros Hi. unfold index.
  destruct (Z.leb_spec 0 i); [|lia]. destruct (Z.ltb_spec i (len l)); [|lia].
  simpl. destruct (lookup_lt_is_Some_2 l (Z.to_nat i)) as [x Hx].
  { unfold len in Hi. lia. }
  exists x. split; [done|]. by eapply list_elem_of_lookup_2.
Qed.

Lemma index_nil {A} i : index ([] : list A) i = None.
Proof.
  unfold index. change (len ([] : list A)) with 0.
  destruct (Z.leb_spec 0 i), (Z.ltb_spec i 0); try done; lia.
Qed.

Lemma resetLegendary_entity e :
  (resetLegendary e).1 = e \/
  (resetLegendary e).1 = with_LegendaryActions (MaxLegendaryActions e) e.
Proof. unfold resetLegendary. destruct (_ && _); [by right | by left]. Qed.

Lemma startOfTurn_fields e :
  ID (startOfTurn e) = ID e /\ Name (startOfTurn e) = Name e
  /\ CurrentHP (startOfTurn e) = CurrentHP e /\ MaxHP (startOfTurn e) = MaxHP e
  /\ Conditions (startOfTurn e) = omap tick (Conditions e).
Proof.
  unfold startOfTurn. by destruct (resetLegendary_entity e) as [-> | ->].
Qed.

(** What [next_turn] returns once the cursor has found the current
    entity: the store holds [startOfTurn] of it, and the status summary has
    a line per entity of that store. *)
Lemma handleNextTurn_current rt st currentID current :
  index (TurnOrder st) (CurrentTurn (advanceTurn st)) = Some currentID ->
  Entities st !! currentID = Some current ->
  exists effects,
    handleNextTurn rt st =
    Returned (store currentID (startOfTurn current) (advanceTurn st))
      (NextTurnOutput.mk currentID (Name current)
         (RoundNumber (advanceTurn st)) effects
         (statusLine rt <$> <[currentID := startOfTurn current]> (Entities st))).
Proof.
  intros Hidx Hcur. unfold handleNextTurn.
  rewrite advanceTurn_order, Hidx, advanceTurn_entities, Hcur.
  unfold startOfTurn.
  destruct (resetLegendary current) as [current1 effects1] eqn:Hreset.
  pose proof (processConditions_entity rt current1 effects1) as Hproc.
  destruct (processConditions rt (current1, effects1)) as [current2 effects2].
  cbn [fst] in Hproc |- *. subst current2. exists effects2.
  pose proof (resetLegendary_entity current) as Hr. rewrite Hreset in Hr.
  cbn [fst] in Hr.
  replace (Name current) with (Name current1) by (by destruct Hr as [-> | ->]).
  rewrite buildStatus_fmap. simpl. by rewrite advanceTurn_entities.
Qed.

Lemma store_cursor_valid id e st :
  cursor_valid st -> cursor_valid (store id e st).
Proof.
  intros (Hcur & Hlen & Hids). split; [done|]. split; [done|]. simpl.
  eapply Forall_impl; [exact Hids|]. intros id' Hid'. simpl in *.
  rewrite lookup_insert_is_Some.
  destruct (decide (id = id')); [by left | by right].
Qed.

(** One call of [next_turn] on a valid cursor: it returns, the cursor
    stays valid, and either it moved one position within the same round or
    it was on the last position and is back at 0 in the next round. *)
Lemma next_turn_step rt st :
  cursor_valid st ->
  exists st' out,
    handleNextTurn rt st = Returned st' out
    /\ cursor_valid st'
    /\ TurnOrder st' = TurnOrder st
    /\ NextTurnOutput.RoundNumber out = RoundNumber st'
    /\ (CurrentTurn st + 1 < len (TurnOrder st) ->
        CurrentTurn st' = CurrentTurn st + 1 /\ RoundNumber st' = RoundNumber st)
    /\ (CurrentTurn st + 1 = len (TurnOrder st) ->
        CurrentTurn st' = 0 /\ RoundNumber st' = GoInt.add (RoundNumber st) 1).
Proof.
  intros Hvalid.
  assert (Hadv : cursor_valid (advanceTurn st)
            /\ (CurrentTurn st + 1 < len (TurnOrder st) ->
                CurrentTurn (advanceTurn st) = CurrentTurn st + 1
                /\ RoundNumber (advanceTurn st) = RoundNumber st)
            /\ (CurrentTurn st + 1 = len (TurnOrder st) ->
                CurrentTurn (advanceTurn st) = 0
                /\ RoundNumber (advanceTurn st) = GoInt.add (RoundNumber st) 1)).
  { pose proof Hvalid as (Hcur & Hlen & Hids).
    destruct (decide (CurrentTurn st + 1 < len (TurnOrder st))) as [Hin|Hout].
    - rewrite advanceTurn_inside by done. unfold cursor_valid. simpl.
      split; [split; [lia|done]|]. split; [done | intros ?; lia].
    - rewrite advanceTurn_wrap by (done || lia). unfold cursor_valid. simpl.
      split; [split; [lia|done]|]. split; [intros ?; lia | done]. }
  destruct Hadv as (Hvalid' & Hin & Hout).
  pose proof Hvalid' as (Hcur & _ & Hids).
  rewrite advanceTurn_order in Hcur.
  destruct (index_Some _ _ Hcur) as (currentID & Hidx & Helem).
  rewrite advanceTurn_order, advanceTurn_entities in Hids.
  rewrite Forall_forall in Hids. destruct (Hids _ Helem) as [current Hcurrent].
  destruct (handleNextTurn_current rt st currentID current Hidx Hcurrent)
    as [effects ->].
  do 2 eexists. split; [reflexivity|].
  split; [by apply store_cursor_valid|]. simpl.
  by rewrite advanceTurn_order.
Qed.

Lemma next_turns_add rt a b st :
  next_turns rt (a + b) st = next_turns rt a st ≫= next_turns rt b.
Proof.
  revert st. induction a as [|a IH]; intros st; simpl; [done|].
  by destruct (handleNextTurn rt st).
Qed.

(** [k] calls that do not reach the end of the turn order move the cursor
    [k] positions and leave the round number alone. *)
Lemma next_turns_inside rt k : forall st,
  cursor_valid st -> CurrentTurn st + Z.of_nat k < len (TurnOrder st) ->
  exists st',
    next_turns rt k st = Some st' /\ cursor_valid st'
    /\ TurnOrder st' = TurnOrder st
    /\ CurrentTurn st' = CurrentTurn st + Z.of_nat k
    /\ RoundNumber st' = RoundNumber st.
Proof.
  induction k as [|k IH]; intros st Hvalid Hk; simpl.
  - exists st. split; [done|]. split; [done|]. split; [done|]. split; [lia|done].
  - destruct (next_turn_step rt st Hvalid)
      as (st1 & out & -> & Hvalid1 & Horder & _ & Hin & _).
    destruct Hin as [Hct Hrn]; [lia|].
    destruct (IH st1 Hvalid1) as (st' & Hrun & Hvalid' & Horder' & Hct' & Hrn').
    { rewrite Horder, Hct. lia. }
    exists st'. split; [done|]. split; [done|].
    split; [congruence|]. split; [lia|congruence].
Qed.

(** From position 0, as many calls as the turn order is long make one
    lap: the cursor is back at 0 and the round number went up once. *)
Lemma next_turns_lap rt st :
  cursor_valid st -> CurrentTurn st = 0 ->
  exists st',
    next_turns rt (length (TurnOrder st)) st = Some st'
    /\ cursor_valid st'
    /\ CurrentTurn st' = 0
    /\ RoundNumber st' = GoInt.add (RoundNumber st) 1.
Proof.
  intros Hvalid Hzero. pose proof Hvalid as (Hcur & _).
  unfold len in Hcur.
  destruct (length (TurnOrder st)) as [|n] eqn:Hn; [lia|].
  replace (S n) with (n + 1)%nat by lia. rewrite next_turns_add.
  destruct (next_turns_inside rt n st Hvalid)
    as (st1 & -> & Hvalid1 & Horder & Hct & Hrn).
  { unfold len. lia. }
  simpl.
  destruct (next_turn_step rt st1 Hvalid1)
    as (st' & out & -> & Hvalid' & _ & _ & _ & Hout).
  destruct Hout as [Hct' Hrn'].
  { rewrite Horder, Hct. unfold len. lia. }
  exists st'. split; [done|]. split; [done|]. split; [done|congruence].
Qed.

Lemma next_turn_no_order rt st :
  TurnOrder st = [] ->
  handleNextTurn rt st = Panicked (advanceTurn st) "index out of range".
Proof.
  intros Hempty. unfold handleNextTurn.
  by rewrite advanceTurn_order, Hempty, index_nil.
Qed.

Lemma computeTurnOrder_empty rt : computeTurnOrder rt ∅ = [].
Proof.
  apply Permutation_nil_r. rewrite computeTurnOrder_perm.
  by rewrite map_to_list_empty.
Qed.

(** C3 does not hold of the code. With an empty turn order, be it after
    [start_combat] on an empty entity list or before any [start_combat],
    [next_turn] does not return an error: it sets the cursor to 0, raises
    the round number and then panics on [TurnOrder[0]]. *)
Theorem next_turn_empty_order_panics (rt : Runtime) (st0 : CombatState) :
  let st := final_state (handleStartCombat rt st0 (StartCombatInput.mk [])) in
  TurnOrder st = []
  /\ handleNextTurn rt st =
       Panicked (mkCombatState ∅ [] 0 2) "index out of range"
  /\ handleNextTurn rt registered =
       Panicked (mkCombatState ∅ [] 0 1) "index out of range".
Proof.
  simpl. change (createEntities []) with (∅ : gmap string Entity).
  rewrite computeTurnOrder_empty.
  split; [done|]. split; by rewrite next_turn_no_order.
Qed.

Lemma start_combat_cursor_valid rt st0 input :
  let st := final_state (handleStartCombat rt st0 input) in
  (1 <= length (TurnOrder st))%nat ->
  len (TurnOrder st) <= GoInt.max_int ->
  cursor_valid st.
Proof.
  simpl. intros Hne Hmax. unfold cursor_valid. simpl.
  split; [unfold len; lia|]. split; [done|].
  apply Forall_forall. intros id. apply computeTurnOrder_elem.
Qed.

(** C4: [start_combat] leaves round 1 and turn index 0 with a turn order
    as long as the encounter has entities (as long as the input list when
    its ids are distinct); [N] calls of [next_turn] on an encounter of
    [N >= 1] entities all return and leave round 2 and turn index 0. In
    general, on a valid cursor a call of [next_turn] either moves the
    index one position up and keeps the round number, or finds the index
    on the last position, puts it back to 0 and adds one to the round
    number; so the round number never decreases and increases exactly on
    the wrap (below the largest [int], which takes 2^63 - 2 laps to
    reach). *)
Theorem full_lap_and_round_counter (rt : Runtime) :
  (forall st0 input,
     let st := final_state (handleStartCombat rt st0 input) in
     let N := length (TurnOrder st) in
     N = size (Entities st)
     /\ (NoDup (EntityInit.ID <$> StartCombatInput.Entities input) ->
         N = length (StartCombatInput.Entities input))
     /\ RoundNumber st = 1 /\ CurrentTurn st = 0
     /\ ((1 <= N)%nat -> Z.of_nat N <= GoInt.max_int ->
         exists st',
           next_turns rt N st = Some st'
           /\ RoundNumber st' = 2 /\ CurrentTurn st' = 0))
  /\ (forall st,
        cursor_valid st ->
        exists st' out,
          handleNextTurn rt st = Returned st' out
          /\ cursor_valid st'
          /\ (CurrentTurn st + 1 < len (TurnOrder st) ->
              CurrentTurn st' = CurrentTurn st + 1
              /\ RoundNumber st' = RoundNumber st)
          /\ (CurrentTurn st + 1 = len (TurnOrder st) ->
              CurrentTurn st' = 0
              /\ RoundNumber st' = GoInt.add (RoundNumber st) 1)
          /\ (GoInt.min_int <= RoundNumber st < GoInt.max_int ->
              RoundNumber st <= RoundNumber st'
              /\ (RoundNumber st' = RoundNumber st + 1 <->
                  CurrentTurn st + 1 = len (TurnOrder st)))).
Proof.
  split.
  - intros st0 input st N.
    split; [apply computeTurnOrder_length|].
    split.
    { intros Hnd. subst N st. simpl.
      rewrite computeTurnOrder_length. by apply createEntities_size. }
    split; [done|]. split; [done|].
    intros HN Hmax.
    destruct (next_turns_lap rt st) as (st' & Hrun & _ & Hct & Hrn); [|done|].
    { by apply start_combat_cursor_valid. }
    exists st'. split; [exact Hrun|]. split; [|exact Hct].
    rewrite Hrn. reflexivity.
  - intros st Hvalid.
    destruct (next_turn_step rt st Hvalid)
      as (st' & out & Hcall & Hvalid' & _ & _ & Hin & Hout).
    exists st', out. split; [done|]. split; [done|].
    split; [done|]. split; [done|].
    intros Hrn. pose proof Hvalid as (Hcur & _).
    assert (Hadd : GoInt.add (RoundNumber st) 1 = RoundNumber st + 1).
    { apply wrap_id. int_range. }
    destruct (decide (CurrentTurn st + 1 < len (TurnOrder st))) as [Hlt|Hge].
    + destruct (Hin Hlt) as [_ ->]. lia.
    + destruct Hout as [_ ->]; [lia|]. rewrite Hadd. lia.
Qed.

(** ** Text *)

Lemma string_app_assoc (a b c : string) : (a +:+ b) +:+ c = a +:+ (b +:+ c).
Proof.
  induction a as [|x a IH]; [reflexivity|].
  change (String x ((a +:+ b) +:+ c) = String x (a +:+ (b +:+ c))).
  by f_equal.
Qed.

Lemma string_app_nil_r (a : string) : a +:+ "" = a.
Proof.
  induction a as [|x a IH]; [reflexivity|].
  change (String x (a +:+ "") = String x a). by f_equal.
Qed.

(** Every element of a list stands in the text that joins the list. *)
Lemma concat_elem (sep : string) (l : list string) (c : string) :
  c ∈ l -> exists before after, String.concat sep l = before +:+ c +:+ after.
Proof.
  induction l as [|x l IH]; intros Hc; [by apply elem_of_nil in Hc|].
  apply elem_of_cons in Hc as [->|Hc].
  - destruct l as [|y l].
    + exists "", "". change (x = x +:+ ""). by rewrite string_app_nil_r.
    + exists "", (sep +:+ String.concat sep (y :: l)). reflexivity.
  - destruct (IH Hc) as (before & after & Heq).
    destruct l as [|y l]; [by apply elem_of_nil in Hc|].
    exists (x +:+ sep +:+ before), after.
    change (x +:+ sep +:+ String.concat sep (y :: l)
            = (x +:+ sep +:+ before) +:+ c +:+ after).
    by rewrite Heq, !string_app_assoc.
Qed.

(** The status line of an entity that has a condition: name, hit points,
    and the names of its conditions joined by spaces in double brackets,
    the condition among them. *)
Lemma statusLine_lists rt e c :
  is_Some (Conditions e !! c) ->
  statusLine rt e =
    Name e +:+ ": " +:+ NilZero.string_of_int (Z.to_int (CurrentHP e))
    +:+ "/" +:+ NilZero.string_of_int (Z.to_int (MaxHP e)) +:+ " HP"
    +:+ " [" +:+ ("[" +:+ String.concat " " (condList rt e) +:+ "]") +:+ "]"
  /\ c ∈ condList rt e
  /\ condList rt e ≡ₚ (map_to_list (Conditions e)).*1
  /\ exists before after,
       String.concat " " (condList rt e) = before +:+ c +:+ after.
Proof.
  intros Hc. assert (Hin : c ∈ condList rt e) by (by apply condList_elem).
  split; [|split; [done|split]].
  - unfold statusLine, fmt_v, fmt_d.
    destruct (condList rt e) as [|x l]; [by apply elem_of_nil in Hin|].
    destruct (Z.gtb_spec (len (x :: l)) 0) as [_|Hle]; [done|].
    unfold len in Hle. simpl in Hle. lia.
  - by rewrite condList_keys, (range_perm rt).
  - by apply concat_elem.
Qed.

(** ** Conditions across turns *)

Lemma handleNextTurn_returned rt st st' out :
  handleNextTurn rt st = Returned st' out ->
  exists currentID current effects,
    Entities st !! currentID = Some current
    /\ st' = store currentID (startOfTurn current) (advanceTurn st)
    /\ out = NextTurnOutput.mk currentID (Name current)
               (RoundNumber (advanceTurn st)) effects
               (statusLine rt <$> Entities st').
Proof.
  intros Hcall.
  destruct (index (TurnOrder st) (CurrentTurn (advanceTurn st)))
    as [currentID|] eqn:Hidx.
  - destruct (Entities st !! currentID) as [current|] eqn:Hcur.
    + destruct (handleNextTurn_current rt st currentID current Hidx Hcur)
        as [effects Heq].
      rewrite Heq in Hcall. injection Hcall as <- <-.
      exists currentID, current, effects. simpl.
      by rewrite advanceTurn_entities.
    + unfold handleNextTurn in Hcall.
      by rewrite advanceTurn_order, Hidx, advanceTurn_entities, Hcur in Hcall.
  - unfold handleNextTurn in Hcall.
    by rewrite advanceTurn_order, Hidx in Hcall.
Qed.

Lemma tick_nonpositive d : d <= 0 -> tick d = Some d.
Proof. intros Hd. unfold tick. destruct (Z.gtb_spec d 0); [lia|done]. Qed.

(** A counter that is not positive survives a call of [next_turn],
    whoever's turn starts, and its condition is in the status line. *)
Lemma next_turn_keeps_condition rt st st' out id e c d :
  Entities st !! id = Some e -> Conditions e !! c = Some d -> d <= 0 ->
  handleNextTurn rt st = Returned st' out ->
  exists e',
    Entities st' !! id = Some e'
    /\ Conditions e' !! c = Some d
    /\ c ∈ condList rt e'
    /\ NextTurnOutput.CombatStatus out !! id = Some (statusLine rt e').
Proof.
  intros He Hc Hd Hcall.
  apply handleNextTurn_returned in Hcall
    as (currentID & current & effects & Hcur & -> & ->).
  simpl. rewrite advanceTurn_entities, lookup_fmap.
  destruct (decide (currentID = id)) as [->|Hne].
  - rewrite lookup_insert_eq. exists (startOfTurn current).
    assert (e = current) as <- by congruence.
    assert (Hc' : Conditions (startOfTurn e) !! c = Some d).
    { destruct (startOfTurn_fields e) as (_ & _ & _ & _ & ->).
      by rewrite lookup_omap, Hc; simpl; apply tick_nonpositive. }
    split; [done|]. split; [done|]. split; [|done].
    apply condList_elem. by eexists.
  - rewrite lookup_insert_ne, He by done. exists e.
    split; [done|]. split; [done|]. split; [|done].
    apply condList_elem. by eexists.
Qed.

(** C10: [add_condition] with duration 0 on an existing target stores the
    counter 0. A counter of 0 on an entity of the encounter is left in
    place, still 0, by every call of [next_turn] that returns, be it that
    entity's turn or another's, and the condition is listed in the
    entity's line of the status summary of that call: the line is the
    entity's name, its hit points and, in double brackets, the names of
    its conditions joined by spaces, with the condition among them. On a
    valid cursor any number of calls return and leave the counter so. The
    permanent counter -1 behaves the same. *)
Theorem zero_duration_condition_persists (rt : Runtime) (id c : string) :
  (forall st input target,
     AddConditionInput.TargetID input = id ->
     AddConditionInput.Condition input = c ->
     AddConditionInput.Duration input = 0 ->
     Entities st !! id = Some target ->
     exists st' out e',
       handleAddCondition st input = Returned st' out
       /\ Entities st' !! id = Some e' /\ Conditions e' !! c = Some 0)
  /\ (forall st e d st' out,
        d = 0 \/ d = -1 ->
        Entities st !! id = Some e -> Conditions e !! c = Some d ->
        handleNextTurn rt st = Returned st' out ->
        exists e',
          Entities st' !! id = Some e' /\ Conditions e' !! c = Some d
          /\ c ∈ condList rt e'
          /\ condList rt e' ≡ₚ (map_to_list (Conditions e')).*1
          /\ NextTurnOutput.CombatStatus out !! id = Some (statusLine rt e')
          /\ NextTurnOutput.CombatStatus out !! id =
               Some (Name e' +:+ ": "
                     +:+ NilZero.string_of_int (Z.to_int (CurrentHP e'))
                     +:+ "/" +:+ NilZero.string_of_int (Z.to_int (MaxHP e'))
                     +:+ " HP" +:+ " ["
                     +:+ ("[" +:+ String.concat " " (condList rt e') +:+ "]")
                     +:+ "]")
          /\ exists before after,
               String.concat " " (condList rt e') = before +:+ c +:+ after)
  /\ (forall n st e d,
        d = 0 \/ d = -1 ->
        cursor_valid st ->
        Entities st !! id = Some e -> Conditions e !! c = Some d ->
        exists st' e',
          next_turns rt n st = Some st'
          /\ Entities st' !! id = Some e' /\ Conditions e' !! c = Some d).
Proof.
  split; [|split].
  - intros st input target <- <- Hzero Htarget.
    unfold handleAddCondition. rewrite Htarget, Hzero.
    do 3 eexists. split; [reflexivity|]. simpl.
    rewrite lookup_insert_eq. split; [reflexivity|]. simpl.
    by rewrite lookup_insert_eq.
  - intros st e d st' out Hd He Hc Hcall.
    destruct (next_turn_keeps_condition rt st st' out id e c d)
      as (e' & He' & Hc' & Hin & Hstatus); try done; [lia|].
    destruct (statusLine_lists rt e' c) as (Hline & _ & Hperm & Htext);
      [by eexists|].
    exists e'. split; [done|]. split; [done|]. split; [done|].
    split; [done|]. split; [done|]. split; [by rewrite Hstatus, Hline|done].
  - induction n as [|n IH]; intros st e d Hd Hvalid He Hc; simpl.
    + by exists st, e.
    + destruct (next_turn_step rt st Hvalid) as (st1 & out & Hcall & Hvalid1 & _).
      rewrite Hcall.
      destruct (next_turn_keeps_condition rt st st1 out id e c d)
        as (e1 & He1 & Hc1 & _); try done; [lia|].
      by apply (IH st1 e1 d).
Qed.

(** ** Hit-point bounds *)

Lemma final_state_map {A B} (f : A -> B) (o : outcome A) :
  final_state (outcome_map f o) = final_state o.
Proof. by destruct o. Qed.

Lemma handleNextTurn_state rt st :
  final_state (handleNextTurn rt st) = nextTurnState st.
Proof.
  unfold nextTurnState.
  destruct (index (TurnOrder (advanceTurn st)) (CurrentTurn (advanceTurn st)))
    as [currentID|] eqn:Hidx.
  - destruct (Entities (advanceTurn st) !! currentID) as [current|] eqn:Hcur.
    + rewrite advanceTurn_order in Hidx. rewrite advanceTurn_entities in Hcur.
      by destruct (handleNextTurn_current rt st currentID current Hidx Hcur)
        as [effects ->].
    + unfold handleNextTurn. by rewrite Hidx, Hcur.
  - unfold handleNextTurn. by rewrite Hidx.
Qed.

Lemma store_hp_invariant id e st :
  hp_invariant st -> hp_bounds e -> MaxHP e <= GoInt.max_int ->
  hp_invariant (store id e st).
Proof. intros Hst He Hmax. by apply map_Forall_insert_2. Qed.

Lemma start_combat_hp_invariant rt st input :
  admissible st (start_combat input) ->
  hp_invariant (final_state (handleStartCombat rt st input)).
Proof.
  simpl. intros Hhp id ent Hent.
  apply createEntities_lookup in Hent as (e & Hin & _ & ->).
  rewrite Forall_forall in Hhp. specialize (Hhp e Hin).
  unfold hp_bounds. destruct (newEntity_hp e) as [-> ->]. lia.
Qed.

Lemma next_turn_hp_invariant st :
  hp_invariant st -> hp_invariant (nextTurnState st).
Proof.
  intros Hst. unfold nextTurnState.
  assert (Hadv : hp_invariant (advanceTurn st)).
  { unfold hp_invariant. by rewrite advanceTurn_entities. }
  destruct (index _ _) as [currentID|]; [|done].
  destruct (Entities (advanceTurn st) !! currentID) as [current|] eqn:Hcur;
    [|done].
  destruct (Hadv _ _ Hcur) as [Hb Hmax].
  destruct (startOfTurn_fields current) as (_ & _ & Hhp & Hmx & _).
  apply store_hp_invariant; [done| |by rewrite Hmx].
  unfold hp_bounds. by rewrite Hhp, Hmx.
Qed.

Lemma apply_damage_hp_invariant st input :
  hp_invariant st -> admissible st (apply_damage input) ->
  hp_invariant (final_state (handleApplyDamage st input)).
Proof.
  intros Hst Hd. simpl in Hd. unfold handleApplyDamage.
  destruct (Entities st !! ApplyDamageInput.TargetID input) as [target|] eqn:Ht;
    [|done].
  destruct (Hst _ _ Ht) as [Hb Hmax]. unfold hp_bounds in Hb.
  set (d := ApplyDamageInput.Damage input) in *.
  assert (Hf : exists f modifier,
            match Resources target !! "resistances" with
            | Some _ => (GoInt.div d 2, " (resisted)")
            | None => (d, "")
            end = (f, modifier) /\ 0 <= f <= GoInt.max_int).
  { destruct (Resources target !! "resistances").
    - do 2 eexists. split; [reflexivity|].
      rewrite div2_quot by int_range.
      unfold GoInt.max_int in *. Z.to_euclidean_division_equations. lia.
    - do 2 eexists. split; [reflexivity|done]. }
  destruct Hf as (f & modifier & -> & Hf). simpl.
  apply store_hp_invariant; [done| |done].
  unfold hp_bounds, GoInt.sub. simpl.
  rewrite wrap_id by int_range.
  destruct (Z.ltb_spec (CurrentHP target - f) 0); lia.
Qed.

Lemma apply_healing_hp_invariant st input :
  hp_invariant st -> admissible st (apply_healing input) ->
  hp_invariant (final_state (handleApplyHealing st input)).
Proof.
  intros Hst [Ha Hfit]. unfold handleApplyHealing.
  destruct (Entities st !! ApplyHealingInput.TargetID input) as [target|] eqn:Ht;
    [|done].
  destruct (Hst _ _ Ht) as [Hb Hmax]. unfold hp_bounds in Hb.
  specialize (Hfit target eq_refl). simpl.
  apply store_hp_invariant; [done| |done].
  unfold hp_bounds, GoInt.add. simpl.
  rewrite wrap_id by int_range.
  destruct (Z.gtb_spec (CurrentHP target + ApplyHealingInput.Amount input)
              (MaxHP target)); lia.
Qed.

(** C1, as amended: the bounds 0 <= CurrentHP <= MaxHP hold of every
    entity after [start_combat] when no entity is given negative hit
    points, whatever the store it is called on, the bounds holding there or
    not; and every other operation keeps them, for every input of
    [next_turn], [add_condition], [make_saving_throw],
    [use_legendary_action] and [track_resource], for every damage amount
    that is not negative, and for every healing amount that is not
    negative and does not overflow the hit points. *)
Theorem hp_bounds_preserved (rt : Runtime) (st : CombatState) (req : request) :
  hp_invariant st \/ (exists input, req = start_combat input) ->
  admissible st req ->
  hp_invariant (final_state (call_tool rt st req))
  /\ forall id e,
       Entities (final_state (call_tool rt st req)) !! id = Some e ->
       0 <= CurrentHP e <= MaxHP e.
Proof.
  intros Hst Hreq.
  assert (Hinv : hp_invariant (final_state (call_tool rt st req))).
  { destruct Hst as [Hst|[input ->]].
    - destruct req as [i| |i|i|i|i|i|i]; cbn [call_tool];
        rewrite final_state_map.
      + by apply start_combat_hp_invariant.
      + rewrite handleNextTurn_state. by apply next_turn_hp_invariant.
      + by apply apply_damage_hp_invariant.
      + by apply apply_healing_hp_invariant.
      + unfold handleAddCondition.
        destruct (Entities st !! _) as [target|] eqn:Ht; [|done].
        destruct (Hst _ _ Ht). by apply store_hp_invariant.
      + unfold handleSavingThrow.
        destruct (Entities st !! _) as [entity|] eqn:Ht; [|done].
        destruct (Hst _ _ Ht).
        destruct (negb _ && _); [by apply store_hp_invariant | done].
      + unfold handleLegendaryAction.
        destruct (Entities st !! _) as [monster|] eqn:Ht; [|done].
        destruct (Hst _ _ Ht).
        destruct (_ <? _); [done|]. by apply store_hp_invariant.
      + unfold handleTrackResource.
        destruct (Entities st !! _) as [entity|] eqn:Ht; [|done].
        destruct (Hst _ _ Ht). by apply store_hp_invariant.
    - cbn [call_tool]. rewrite final_state_map.
      by apply start_combat_hp_invariant. }
  split; [done|]. intros id e He. by destruct (Hinv id e He).
Qed.

Lemma duel_hp_invariant : hp_invariant duel.
Proof.
  apply start_combat_hp_invariant. simpl.
  repeat constructor; simpl; unfold GoInt.max_int; lia.
Qed.

Lemma hp_bounds_preserved_witness :
  (hp_invariant duel
   /\ hp_invariant
        (final_state
           (call_tool (runtime false 6) duel
              (apply_damage (ApplyDamageInput.mk "B" 20 "slashing")))))
  /\ ((exists e,
         Entities
           (final_state
              (call_tool (runtime false 6) duel
                 (apply_damage (ApplyDamageInput.mk "B" (-5) "fire")))) !! "B"
         = Some e
         /\ CurrentHP e = 35 /\ MaxHP e = 30)
      /\ hp_invariant
           (final_state
              (call_tool (runtime false 6)
                 (final_state
                    (call_tool (runtime false 6) duel
                       (apply_damage (ApplyDamageInput.mk "B" (-5) "fire"))))
                 (start_combat (StartCombatInput.mk [fighter; dragon]))))).
Proof.
  split.
  - split; [exact duel_hp_invariant|].
    apply (hp_bounds_preserved (runtime false 6) duel
             (apply_damage (ApplyDamageInput.mk "B" 20 "slashing"))).
    + left. exact duel_hp_invariant.
    + simpl. unfold GoInt.max_int. lia.
  - split.
    + eexists. split; [vm_compute; reflexivity|]. split; reflexivity.
    + apply (hp_bounds_preserved (runtime false 6)
               (final_state
                  (call_tool (runtime false 6) duel
                     (apply_damage (ApplyDamageInput.mk "B" (-5) "fire"))))
               (start_combat (StartCombatInput.mk [fighter; dragon]))).
      * right. by eexists.
      * simpl. repeat constructor; simpl; unfold GoInt.max_int; lia.
Defined.

(** C1, as stated, fails. In an encounter within the bounds, 5 points of
    negative damage take the fighter from 30 to 35 of 30 hit points, and 40
    points of negative healing take him to -10; and [start_combat] with -5
    hit points creates an entity at -5 of -5. *)
Lemma hp_bounds_counterexample :
  hp_invariant duel
  /\ (exists e,
        Entities
          (final_state
             (call_tool (runtime false 6) duel
                (apply_damage (ApplyDamageInput.mk "B" (-5) "fire")))) !! "B"
        = Some e
        /\ CurrentHP e = 35 /\ MaxHP e = 30)
  /\ (exists e,
        Entities
          (final_state
             (call_tool (runtime false 6) duel
                (apply_healing (ApplyHealingInput.mk "B" (-40))))) !! "B"
        = Some e
        /\ CurrentHP e = -10 /\ MaxHP e = 30)
  /\ (exists e,
        Entities
          (final_state
             (call_tool (runtime false 6) registered
                (start_combat
                   (StartCombatInput.mk
                      [EntityInit.mk "D" "Dummy" 1 (-5) 10 false ""])))) !! "D"
        = Some e
        /\ CurrentHP e = -5 /\ MaxHP e = -5).
Proof.
  split; [exact duel_hp_invariant|].
  split; [|split]; eexists; (split; [vm_compute; reflexivity|]); split; reflexivity.
Qed.

(** ** Determinism *)

(** A map with at most one entry can be walked in one order only. *)
Lemma range_small rt {A} (m : gmap string A) :
  (size m <= 1)%nat -> range rt m = map_to_list m.
Proof.
  intros Hsize. pose proof (range_perm rt A m) as Hperm.
  rewrite <- length_map_to_list in Hsize.
  destruct (map_to_list m) as [|x [|y l]]; simpl in Hsize; [| |lia].
  - by apply Permutation_nil_r.
  - by apply Permutation_singleton_r.
Qed.

Lemma omap_size {A B} (f : A -> option B) (m : gmap string A) :
  (size (omap f m) <= size m)%nat.
Proof.
  rewrite <- !(size_dom (D := gset string)).
  apply subseteq_size, dom_omap_subseteq.
Qed.

Lemma statusLine_small rt1 rt2 e :
  (size (Conditions e) <= 1)%nat -> statusLine rt1 e = statusLine rt2 e.
Proof.
  intros Hsize. unfold statusLine.
  by rewrite !condList_keys, !range_small.
Qed.

Lemma processConditions_small rt1 rt2 current effects :
  (size (Conditions current) <= 1)%nat ->
  processConditions rt1 (current, effects) =
  processConditions rt2 (current, effects).
Proof. intros Hsize. unfold processConditions. by rewrite !range_small. Qed.

Lemma handleNextTurn_small rt1 rt2 st :
  (forall id e, Entities st !! id = Some e -> (size (Conditions e) <= 1)%nat) ->
  handleNextTurn rt1 st = handleNextTurn rt2 st.
Proof.
  intros Hsmall. unfold handleNextTurn.
  destruct (index _ _) as [currentID|]; [|done].
  destruct (Entities (advanceTurn st) !! currentID) as [current|] eqn:Hcur;
    [|done].
  rewrite advanceTurn_entities in Hcur.
  destruct (resetLegendary current) as [current1 effects1] eqn:Hreset.
  assert (Hc1 : Conditions current1 = Conditions current).
  { pose proof (resetLegendary_entity current) as Hr. rewrite Hreset in Hr.
    cbn [fst] in Hr. by destruct Hr as [-> | ->]. }
  assert (Hs1 : (size (Conditions current1) <= 1)%nat).
  { rewrite Hc1. by eapply Hsmall. }
  rewrite (processConditions_small rt1 rt2) by done.
  pose proof (processConditions_entity rt2 current1 effects1) as Hproc.
  destruct (processConditions rt2 (current1, effects1)) as [current2 effects2].
  cbn [fst] in Hproc. f_equal. f_equal.
  rewrite !buildStatus_fmap. apply map_fmap_ext. intros id e He.
  apply statusLine_small. simpl in He. rewrite advanceTurn_entities in He.
  destruct (decide (currentID = id)) as [->|Hne].
  - rewrite lookup_insert_eq in He. injection He as <-. subst current2. simpl.
    etrans; [apply omap_size|done].
  - rewrite lookup_insert_ne in He by done. by eapply Hsmall.
Qed.

Lemma computeTurnOrder_deterministic rt1 rt2 entities :
  no_ties entities ->
  computeTurnOrder rt1 entities = computeTurnOrder rt2 entities.
Proof.
  intros Hties.
  eapply StronglySorted_perm_eq;
    [|by apply computeTurnOrder_strict..|by rewrite !computeTurnOrder_perm].
  simpl. intros a b _ _ Hab Hba. lia.
Qed.

(** C9, as amended: the choices of the Go runtime aside, a call is a
    function of the store and the input. Of those choices, the die enters
    [make_saving_throw] only; the order in which maps are walked and ties
    are sorted enters [start_combat] and [next_turn] only, and there only
    the turn order between entities of equal initiative and the order in
    which the conditions of one entity are listed in [next_turn]'s output.
    So [apply_damage], [apply_healing], [add_condition],
    [use_legendary_action] and [track_resource] give the same outcome
    under any two runtimes; [make_saving_throw] does when the two rolls
    are equal; [next_turn] always leaves the same store, and gives the
    same output when no entity has more than one condition;
    [start_combat] always leaves the same entities, round and turn index
    and a turn order of the same ids, and gives the same outcome when no
    two entities of the encounter have the same initiative. *)
Theorem deterministic_up_to_runtime (rt1 rt2 : Runtime) (st : CombatState)
    (req : request) :
  match req with
  | start_combat i =>
      let st1 := final_state (call_tool rt1 st req) in
      let st2 := final_state (call_tool rt2 st req) in
      Entities st1 = Entities st2
      /\ CurrentTurn st1 = CurrentTurn st2
      /\ RoundNumber st1 = RoundNumber st2
      /\ TurnOrder st1 ≡ₚ TurnOrder st2
      /\ (no_ties (Entities st1) -> call_tool rt1 st req = call_tool rt2 st req)
  | next_turn =>
      final_state (call_tool rt1 st req) = final_state (call_tool rt2 st req)
      /\ ((forall id e,
             Entities st !! id = Some e -> (size (Conditions e) <= 1)%nat) ->
          call_tool rt1 st req = call_tool rt2 st req)
  | make_saving_throw i =>
      rand_Intn rt1 20 = rand_Intn rt2 20 ->
      call_tool rt1 st req = call_tool rt2 st req
  | _ => call_tool rt1 st req = call_tool rt2 st req
  end.
Proof.
  destruct req as [i| |i|i|i|i|i|i]; try reflexivity.
  - simpl. split; [done|]. split; [done|]. split; [done|].
    split; [by rewrite !computeTurnOrder_perm|].
    intros Hties.
    by rewrite (computeTurnOrder_deterministic rt1 rt2).
  - cbn [call_tool]. rewrite !final_state_map, !handleNextTurn_state.
    split; [done|]. intros Hsmall.
    by rewrite (handleNextTurn_small rt1 rt2).
  - intros Hroll. simpl. unfold handleSavingThrow. by rewrite Hroll.
Qed.

(** C9, as stated, fails on both operations that walk a map. With the
    fighter and the rogue tied on initiative 10, [start_combat] gives
    the turn order C, B when the map is walked in one order and B, C when
    it is walked in the other. With two conditions on the fighter,
    [next_turn] lists them in his status line in the order of the walk. *)
Lemma determinism_counterexample :
  let input := StartCombatInput.mk [fighter; rogue] in
  (exists st1 st2 msg,
     handleStartCombat (runtime false 6) registered input =
       Returned st1 (StartCombatOutput.mk ["C"; "B"] msg)
     /\ handleStartCombat (runtime true 6) registered input =
       Returned st2 (StartCombatOutput.mk ["B"; "C"] msg)
     /\ TurnOrder st1 = ["C"; "B"] /\ TurnOrder st2 = ["B"; "C"])
  /\ (exists st' out1 out2,
        handleNextTurn (runtime false 6) duel_conditions = Returned st' out1
        /\ handleNextTurn (runtime true 6) duel_conditions = Returned st' out2
        /\ NextTurnOutput.CombatStatus out1 !! "B"
           = Some "Bob: 30/30 HP [[stunned prone]]"
        /\ NextTurnOutput.CombatStatus out2 !! "B"
           = Some "Bob: 30/30 HP [[prone stunned]]").
Proof.
  split.
  - do 3 eexists. split; [vm_compute; reflexivity|].
    split; [vm_compute; reflexivity|]. split; reflexivity.
  - do 3 eexists. split; [vm_compute; reflexivity|].
    split; [vm_compute; reflexivity|]. split; vm_compute; reflexivity.
Qed.

(** * Further properties of the code *)

(** ** Dice *)

(** X1: with draws that [rand.Intn(20)] can give, every d20 roll is
    within 1..20; a roll with advantage keeps the higher and a roll with
    disadvantage the lower of its two rolls, each total being one of the
    two rolls reported, and on the same draws advantage never gives
    less than disadvantage. *)
Theorem dice_rolls_in_range (draw1 draw2 : Z) :
  0 <= draw1 < 20 -> 0 <= draw2 < 20 ->
  let single := RollD20 draw1 in
  let adv := RollD20Advantage draw1 draw2 in
  let dis := RollD20Disadvantage draw1 draw2 in
  SimpleRollOutput.Roll single = draw1 + 1
  /\ 1 <= SimpleRollOutput.Roll single <= 20
  /\ RollD20AdvantageOutput.Rolls adv = [draw1 + 1; draw2 + 1]
  /\ RollD20DisadvantageOutput.Rolls dis = [draw1 + 1; draw2 + 1]
  /\ RollD20AdvantageOutput.Total adv ∈ RollD20AdvantageOutput.Rolls adv
  /\ RollD20DisadvantageOutput.Total dis ∈ RollD20DisadvantageOutput.Rolls dis
  /\ Forall (fun r => r <= RollD20AdvantageOutput.Total adv)
       (RollD20AdvantageOutput.Rolls adv)
  /\ Forall (fun r => RollD20DisadvantageOutput.Total dis <= r)
       (RollD20DisadvantageOutput.Rolls dis)
  /\ 1 <= RollD20DisadvantageOutput.Total dis
  /\ RollD20DisadvantageOutput.Total dis <= RollD20AdvantageOutput.Total adv
  /\ RollD20AdvantageOutput.Total adv <= 20.
Proof.
  intros H1 H2. simpl. unfold GoInt.add.
  rewrite !wrap_id by int_range.
  split; [done|]. split; [lia|]. split; [done|]. split; [done|].
  split.
  { destruct (Z.max_spec (draw1 + 1) (draw2 + 1)) as [[_ ->]|[_ ->]];
      [by right; left | by left]. }
  split.
  { destruct (Z.min_spec (draw1 + 1) (draw2 + 1)) as [[_ ->]|[_ ->]];
      [by left | by right; left]. }
  split; [repeat constructor; lia|]. split; [repeat constructor; lia|]. lia.
Qed.

Lemma dice_rolls_in_range_witness :
  RollD20AdvantageOutput.Rolls (RollD20Advantage 4 16) = [5; 17]
  /\ RollD20AdvantageOutput.Total (RollD20Advantage 4 16) = 17
  /\ RollD20DisadvantageOutput.Total (RollD20Disadvantage 4 16) = 5.
Proof.
  destruct (dice_rolls_in_range 4 16) as (_ & _ & Hrolls & _); [lia | lia |].
  split; [exact Hrolls|]. split; reflexivity.
Defined.

(** ** Healing *)

(** X2: on an existing target [apply_healing] returns the 64-bit sum of
    CurrentHP and the amount, lowered to MaxHP when above it, and leaves it
    as the CurrentHP of the target in the encounter, the target's MaxHP,
    every other entity, the turn order, the cursor and the round counter
    being as before; so the result never exceeds MaxHP whatever the amount.
    The amount healed is the 64-bit difference to the hit points before.
    For an amount that is not negative and does not overflow the hit
    points: on a target within its maximum the amount healed lies between
    0 and the amount asked and equals it exactly when the sum stays within
    MaxHP; a target above its maximum is brought down to it, the amount
    healed being the 64-bit difference of MaxHP and the hit points before,
    which is that difference itself, and negative, whenever it fits an
    [int], as it does for every MaxHP that is not negative. *)
Theorem apply_healing_result (st : CombatState) (input : ApplyHealingInput.t)
    (target : Entity) :
  Entities st !! ApplyHealingInput.TargetID input = Some target ->
  let a := ApplyHealingInput.Amount input in
  let before := CurrentHP target in
  let hp := Z.min (MaxHP target) (GoInt.wrap (before + a)) in
  let healed := GoInt.wrap (hp - before) in
  (exists msg st' target',
     handleApplyHealing st input =
     Returned st' (ApplyHealingOutput.mk healed hp msg)
     /\ st' =
        store (ApplyHealingInput.TargetID input) (with_CurrentHP hp target) st
     /\ Entities st' !! ApplyHealingInput.TargetID input = Some target'
     /\ CurrentHP target' = hp /\ MaxHP target' = MaxHP target
     /\ target' = with_CurrentHP hp target
     /\ (forall id',
          id' <> ApplyHealingInput.TargetID input ->
          Entities st' !! id' = Entities st !! id')
     /\ TurnOrder st' = TurnOrder st /\ CurrentTurn st' = CurrentTurn st
     /\ RoundNumber st' = RoundNumber st)
  /\ hp <= MaxHP target
  /\ (0 <= a <= GoInt.max_int -> GoInt.min_int <= before ->
      before + a <= GoInt.max_int ->
      (before <= MaxHP target ->
       0 <= healed <= a /\ (healed = a <-> before + a <= MaxHP target))
      /\ (MaxHP target < before ->
          hp = MaxHP target
          /\ healed = GoInt.wrap (MaxHP target - before)
          /\ (GoInt.min_int <= MaxHP target - before ->
              healed = MaxHP target - before /\ healed < 0)
          /\ (0 <= MaxHP target ->
              healed = MaxHP target - before /\ healed < 0))).
Proof.
  intros Hlook a before hp healed. split; [|split].
  - unfold handleApplyHealing. rewrite Hlook. fold a before. unfold GoInt.add.
    assert (Hhp : (if GoInt.wrap (before + a) >? MaxHP target
                   then MaxHP target else GoInt.wrap (before + a)) = hp).
    { subst hp. destruct (Z.gtb_spec (GoInt.wrap (before + a)) (MaxHP target)); lia. }
    rewrite Hhp. simpl. do 3 eexists. split; [reflexivity|].
    split; [reflexivity|]. simpl. rewrite lookup_insert_eq.
    split; [reflexivity|]. split; [reflexivity|]. split; [reflexivity|].
    split; [reflexivity|]. split; [|done].
    intros id' Hid'. by rewrite lookup_insert_ne.
  - subst hp. lia.
  - intros Ha Hmin Hfit. subst healed hp.
    rewrite (wrap_id (before + a)) by int_range. split.
    + intros Hle. rewrite wrap_id by int_range. lia.
    + intros Hgt.
      assert (Hhp : Z.min (MaxHP target) (before + a) = MaxHP target) by lia.
      rewrite Hhp. split; [done|]. split; [done|]. split.
      * intros Hfits. rewrite wrap_id by int_range. lia.
      * intros Hmax. rewrite wrap_id by int_range. lia.
Qed.

Lemma apply_healing_result_witness :
  exists msg st' target',
    handleApplyHealing duel (ApplyHealingInput.mk "B" 7) =
    Returned st' (ApplyHealingOutput.mk 0 30 msg)
    /\ Entities st' !! "B" = Some target'
    /\ CurrentHP target' = 30 /\ MaxHP target' = 30.
Proof.
  destruct (apply_healing_result duel (ApplyHealingInput.mk "B" 7)
              (newEntity fighter) eq_refl)
    as [(msg & st' & target' & Hcall & _ & Hlook & Hhp & Hmax & _) _].
  exists msg, st', target'.
  split; [exact Hcall|]. split; [exact Hlook|].
  split; [exact Hhp|exact Hmax].
Defined.

(** ** What a call leaves alone *)

Lemma store_existing_dom id e e' st :
  Entities st !! id = Some e ->
  dom (Entities (store id e' st)) = dom (Entities st).
Proof. intros He. simpl. apply dom_insert_lookup_L. by eexists. Qed.

(** A call that names an entity either leaves the store as it was or
    writes the entity stored under that id. *)
Lemma call_tool_writes_one rt st req id :
  request_entity req = Some id ->
  final_state (call_tool rt st req) = st
  \/ exists e e', Entities st !! id = Some e
                  /\ final_state (call_tool rt st req) = store id e' st.
Proof.
  intros Hreq.
  destruct req as [i| |i|i|i|i|i|i]; simpl in Hreq; try discriminate;
    injection Hreq as <-; cbn [call_tool]; rewrite final_state_map.
  - unfold handleApplyDamage.
    destruct (Entities st !! _) as [e|] eqn:He; [|by left].
    destruct (Resources e !! "resistances"); right; by do 2 eexists.
  - unfold handleApplyHealing.
    destruct (Entities st !! _) as [e|] eqn:He; [|by left].
    right; by do 2 eexists.
  - unfold handleAddCondition.
    destruct (Entities st !! _) as [e|] eqn:He; [|by left].
    right; by do 2 eexists.
  - unfold handleSavingThrow.
    destruct (Entities st !! _) as [e|] eqn:He; [|by left].
    destruct (negb _ && _); [right; by do 2 eexists | by left].
  - unfold handleLegendaryAction.
    destruct (Entities st !! _) as [e|] eqn:He; [|by left].
    destruct (_ <? _); [by left | right; by do 2 eexists].
  - unfold handleTrackResource.
    destruct (Entities st !! _) as [e|] eqn:He; [|by left].
    right; by do 2 eexists.
Qed.

Lemma call_tool_frame (rt : Runtime) (st : CombatState) (req : request) :
  is_start_combat req = false ->
  let st' := final_state (call_tool rt st req) in
  TurnOrder st' = TurnOrder st
  /\ dom (Entities st') = dom (Entities st)
  /\ (req <> next_turn ->
      CurrentTurn st' = CurrentTurn st /\ RoundNumber st' = RoundNumber st)
  /\ (forall id id',
        request_entity req = Some id -> id' <> id ->
        Entities st' !! id' = Entities st !! id').
Proof.
  intros Hstart st'.
  destruct (request_entity req) as [id|] eqn:Hreq.
  - assert (Hne : req <> next_turn) by (by intros ->).
    destruct (call_tool_writes_one rt st req id Hreq) as [Hsame|(e & e' & He & Hst)];
      subst st'.
    + rewrite Hsame. split; [done|]. split; [done|]. split; [done|done].
    + rewrite Hst. split; [done|].
      split; [by eapply store_existing_dom|]. split; [done|].
      intros id1 id' [= <-] Hid'. simpl. by rewrite lookup_insert_ne.
  - destruct req; try discriminate. subst st'. cbn [call_tool].
    rewrite final_state_map, handleNextTurn_state. unfold nextTurnState.
    assert (Hadv : dom (Entities (advanceTurn st)) = dom (Entities st))
      by (by rewrite advanceTurn_entities).
    destruct (index _ _) as [currentID|];
      [|by rewrite advanceTurn_order].
    destruct (Entities (advanceTurn st) !! currentID) as [current|] eqn:Hcur;
      [|by rewrite advanceTurn_order].
    split; [apply advanceTurn_order|].
    split; [by rewrite (store_existing_dom _ current)|]. done.
Qed.

(** X3: no operation but [start_combat] adds or removes an entity or
    touches the turn order; no operation but [start_combat] and
    [next_turn] moves the turn index or the round number; and an
    operation that names an entity leaves every other entity as it was. *)
Theorem roster_and_turn_order_fixed (rt : Runtime) (st : CombatState)
    (req : request) :
  is_start_combat req = false ->
  let st' := final_state (call_tool rt st req) in
  TurnOrder st' = TurnOrder st
  /\ dom (Entities st') = dom (Entities st)
  /\ (req <> next_turn ->
      CurrentTurn st' = CurrentTurn st /\ RoundNumber st' = RoundNumber st)
  /\ (forall id id',
        request_entity req = Some id -> id' <> id ->
        Entities st' !! id' = Entities st !! id').
Proof. apply call_tool_frame. Qed.

Lemma roster_and_turn_order_fixed_witness :
  TurnOrder
    (final_state
       (call_tool (runtime false 6) duel
          (add_condition (AddConditionInput.mk "B" "prone" 2))))
  = TurnOrder duel.
Proof.
  apply (roster_and_turn_order_fixed (runtime false 6) duel
           (add_condition (AddConditionInput.mk "B" "prone" 2))).
  reflexivity.
Defined.

(** ** Entities of a fresh encounter *)

Lemma createEntities_last l id :
  createEntities l !! id =
  newEntity <$> last (filter (fun e => EntityInit.ID e = id) l).
Proof.
  induction l as [|e l IH] using rev_ind; [done|].
  rewrite createEntities_snoc, filter_app.
  destruct (decide (EntityInit.ID e = id)) as [Heq|Hne].
  - rewrite (filter_cons_True _ e []), filter_nil by done.
    rewrite last_snoc. subst id. by rewrite lookup_insert_eq.
  - rewrite (filter_cons_False _ e []), filter_nil by done.
    rewrite app_nil_r. by rewrite lookup_insert_ne.
Qed.

Lemma createEntities_count l :
  size (createEntities l) = length (remove_dups (EntityInit.ID <$> l)).
Proof.
  rewrite <- (size_dom (D := gset string)).
  rewrite <- (size_list_to_set (C := gset string)) by apply NoDup_remove_dups.
  f_equal. apply set_eq. intros id.
  by rewrite elem_of_dom, createEntities_ids, elem_of_list_to_set,
    elem_of_remove_dups.
Qed.

(** X4: when the input of [start_combat] gives an id more than once, the
    entity stored under it is built from the last definition with that id
    and the earlier ones are dropped without an error; the encounter, its
    turn order and the count in the message have as many combatants as
    the input has distinct ids. *)
Theorem start_combat_last_definition_wins (rt : Runtime) (st0 : CombatState)
    (input : StartCombatInput.t) :
  let l := StartCombatInput.Entities input in
  let ids := remove_dups (EntityInit.ID <$> l) in
  exists st out,
    handleStartCombat rt st0 input = Returned st out
    /\ (forall id,
          Entities st !! id =
          newEntity <$> last (filter (fun e => EntityInit.ID e = id) l))
    /\ size (Entities st) = length ids
    /\ length (StartCombatOutput.TurnOrder out) = length ids
    /\ StartCombatOutput.TurnOrder out ≡ₚ ids
    /\ StartCombatOutput.Message out =
         "Combat started with " +:+ fmt_d (Z.of_nat (length ids))
         +:+ " combatants. Round 1, turn 1.".
Proof.
  intros l ids. do 2 eexists. split; [reflexivity|]. simpl. fold l.
  split; [apply createEntities_last|].
  split; [apply createEntities_count|].
  split; [by rewrite computeTurnOrder_length, createEntities_count|].
  split; [|by rewrite createEntities_count].
  apply NoDup_Permutation;
    [apply computeTurnOrder_NoDup | apply NoDup_remove_dups |].
  intros id. subst ids.
  by rewrite computeTurnOrder_elem, createEntities_ids, elem_of_remove_dups.
Qed.

Lemma newEntity_fresh e :
  let ent := newEntity e in
  ID ent = EntityInit.ID e /\ Name ent = EntityInit.Name e
  /\ InitiativeRoll ent = EntityInit.Initiative e
  /\ AC ent = EntityInit.AC e
  /\ MaxHP ent = EntityInit.HP e /\ CurrentHP ent = EntityInit.HP e
  /\ Conditions ent = ∅ /\ Resources ent = ∅
  /\ LegendaryActions ent = MaxLegendaryActions ent
  /\ LegendaryResistances ent = MaxLegendaryActions ent
  /\ (MaxLegendaryActions ent = 3 \/ MaxLegendaryActions ent = 0)
  /\ (MaxLegendaryActions ent = 3 <->
      EntityInit.IsMonster e = true
      /\ EntityInit.MonsterName e = "Ancient Red Dragon").
Proof.
  unfold newEntity, loadMonsterStats. simpl.
  destruct (EntityInit.IsMonster e);
    destruct (String.eqb_spec (EntityInit.MonsterName e) "") as [Hempty|Hname];
    simpl;
    try destruct (String.eqb_spec (EntityInit.MonsterName e) "Ancient Red Dragon")
      as [Hdragon|Hother];
    simpl; repeat (split; [done|]);
    try (split; [by right|]); try (split; [by left|]);
    split; try done; try (by intros [? ?]).
  intros [_ Hd]. by rewrite Hempty in Hd.
Qed.

(** X5: every entity of the encounter [start_combat] leaves comes from a
    definition of the input with its id, starts at full hit points with no
    condition and no resource, and has as many legendary actions and
    legendary resistances as its maximum of legendary actions: 3 for a
    monster whose template name is "Ancient Red Dragon", 0 for every other
    combatant. *)
Theorem start_combat_entities_fresh (rt : Runtime) (st0 : CombatState)
    (input : StartCombatInput.t) (id : string) (ent : Entity) :
  Entities (final_state (handleStartCombat rt st0 input)) !! id = Some ent ->
  exists e,
    e ∈ StartCombatInput.Entities input
    /\ EntityInit.ID e = id /\ ID ent = id
    /\ Name ent = EntityInit.Name e
    /\ InitiativeRoll ent = EntityInit.Initiative e
    /\ MaxHP ent = EntityInit.HP e /\ CurrentHP ent = MaxHP ent
    /\ Conditions ent = ∅ /\ Resources ent = ∅
    /\ LegendaryActions ent = MaxLegendaryActions ent
    /\ LegendaryResistances ent = MaxLegendaryActions ent
    /\ (MaxLegendaryActions ent = 3 \/ MaxLegendaryActions ent = 0)
    /\ (MaxLegendaryActions ent = 3 <->
        IsMonster ent = true /\ MonsterName ent = "Ancient Red Dragon").
Proof.
  simpl. intros Hent.
  apply createEntities_lookup in Hent as (e & Hin & Hid & ->).
  destruct (newEntity_fresh e)
    as (H1 & H2 & H3 & _ & H5 & H6 & H7 & H8 & H9 & H10 & H11 & H12).
  exists e. split; [done|]. split; [done|]. split; [congruence|].
  split; [done|]. split; [done|]. split; [done|]. split; [congruence|].
  split; [done|]. split; [done|]. split; [done|]. split; [done|].
  split; [done|]. rewrite H12.
  unfold newEntity, loadMonsterStats.
  destruct (_ && _); [destruct (String.eqb _ _)|]; done.
Qed.

Lemma start_combat_entities_fresh_witness :
  exists e,
    e ∈ [fighter; dragon]
    /\ EntityInit.ID e = "A" /\ ID (newEntity dragon) = "A"
    /\ Name (newEntity dragon) = EntityInit.Name e
    /\ InitiativeRoll (newEntity dragon) = EntityInit.Initiative e
    /\ MaxHP (newEntity dragon) = EntityInit.HP e
    /\ CurrentHP (newEntity dragon) = MaxHP (newEntity dragon)
    /\ Conditions (newEntity dragon) = ∅ /\ Resources (newEntity dragon) = ∅
    /\ LegendaryActions (newEntity dragon) = MaxLegendaryActions (newEntity dragon)
    /\ LegendaryResistances (newEntity dragon) = MaxLegendaryActions (newEntity dragon)
    /\ (MaxLegendaryActions (newEntity dragon) = 3
        \/ MaxLegendaryActions (newEntity dragon) = 0)
    /\ (MaxLegendaryActions (newEntity dragon) = 3 <->
        IsMonster (newEntity dragon) = true
        /\ MonsterName (newEntity dragon) = "Ancient Red Dragon").
Proof.
  apply (start_combat_entities_fresh (runtime false 6) registered
           (StartCombatInput.mk [fighter; dragon]) "A" (newEntity dragon)).
  vm_compute. reflexivity.
Defined.

(** ** One entity under one call *)

Lemma store_lookup id id' e st :
  Entities (store id e st) !! id' =
  if decide (id = id') then Some e else Entities st !! id'.
Proof. simpl. apply lookup_insert. Qed.

Lemma call_tool_entity_step rt st req id e e' :
  is_start_combat req = false ->
  Entities st !! id = Some e ->
  Entities (final_state (call_tool rt st req)) !! id = Some e' ->
  entity_step req e e'.
Proof.
  intros Hstart He He'.
  destruct req as [i| |i|i|i|i|i|i]; try discriminate;
    cbn [call_tool] in He'; rewrite final_state_map in He'.
  - rewrite handleNextTurn_state in He'. unfold nextTurnState in He'.
    destruct (index _ _) as [currentID|];
      [|rewrite advanceTurn_entities in He'; replace e' with e by congruence;
        constructor].
    destruct (Entities (advanceTurn st) !! currentID) as [current|] eqn:Hcur;
      [|rewrite advanceTurn_entities in He'; replace e' with e by congruence;
        constructor].
    rewrite store_lookup, advanceTurn_entities in He'.
    rewrite advanceTurn_entities in Hcur.
    destruct (decide (currentID = id)) as [->|Hne].
    + replace e' with (startOfTurn current) by congruence.
      replace current with e by congruence. constructor.
    + replace e' with e by congruence. constructor.
  - unfold handleApplyDamage in He'.
    destruct (Entities st !! ApplyDamageInput.TargetID i) as [target|] eqn:Ht;
      [|replace e' with e by (simpl in He'; congruence); constructor].
    destruct (match Resources target !! "resistances" with
              | Some _ => _ | None => _ end) as [f modifier].
    simpl in He'. rewrite lookup_insert in He'.
    destruct (decide (ApplyDamageInput.TargetID i = id)) as [Heq|Hne].
    + rewrite Heq in Ht. replace target with e in * by congruence.
      injection He' as <-. apply step_damage.
      destruct (Z.ltb_spec (GoInt.sub (CurrentHP e) f) 0); lia.
    + replace e' with e by congruence. constructor.
  - unfold handleApplyHealing in He'.
    destruct (Entities st !! ApplyHealingInput.TargetID i) as [target|] eqn:Ht;
      [|replace e' with e by (simpl in He'; congruence); constructor].
    simpl in He'. rewrite lookup_insert in He'.
    destruct (decide (ApplyHealingInput.TargetID i = id)) as [Heq|Hne].
    + rewrite Heq in Ht. replace target with e in * by congruence.
      injection He' as <-. apply step_healing.
      destruct (Z.gtb_spec (GoInt.add (CurrentHP e) (ApplyHealingInput.Amount i))
                  (MaxHP e)); lia.
    + replace e' with e by congruence. constructor.
  - unfold handleAddCondition in He'.
    destruct (Entities st !! AddConditionInput.TargetID i) as [target|] eqn:Ht;
      [|replace e' with e by (simpl in He'; congruence); constructor].
    simpl in He'. rewrite lookup_insert in He'.
    destruct (decide (AddConditionInput.TargetID i = id)) as [Heq|Hne].
    + rewrite Heq in Ht. replace target with e in * by congruence.
      injection He' as <-. constructor.
    + replace e' with e by congruence. constructor.
  - unfold handleSavingThrow in He'.
    destruct (Entities st !! SavingThrowInput.EntityID i) as [entity|] eqn:Ht;
      [|replace e' with e by (simpl in He'; congruence); constructor].
    destruct (negb _) eqn:Hfail; simpl in He';
      [|replace e' with e by congruence; constructor].
    destruct (Z.gtb_spec (LegendaryResistances entity) 0) as [Hpos|Hzero];
      simpl in He'; [|replace e' with e by congruence; constructor].
    rewrite lookup_insert in He'.
    destruct (decide (SavingThrowInput.EntityID i = id)) as [Heq|Hne].
    + rewrite Heq in Ht. replace entity with e in * by congruence.
      injection He' as <-. constructor. lia.
    + replace e' with e by congruence. constructor.
  - unfold handleLegendaryAction in He'.
    destruct (Entities st !! LegendaryActionInput.MonsterID i)
      as [monster|] eqn:Ht;
      [|replace e' with e by (simpl in He'; congruence); constructor].
    destruct (Z.ltb_spec (LegendaryActions monster) (LegendaryActionInput.Cost i));
      simpl in He'; [replace e' with e by congruence; constructor|].
    rewrite lookup_insert in He'.
    destruct (decide (LegendaryActionInput.MonsterID i = id)) as [Heq|Hne].
    + rewrite Heq in Ht. replace monster with e in * by congruence.
      injection He' as <-. by constructor.
    + replace e' with e by congruence. constructor.
  - unfold handleTrackResource in He'.
    destruct (Entities st !! TrackResourceInput.EntityID i) as [entity|] eqn:Ht;
      [|replace e' with e by (simpl in He'; congruence); constructor].
    simpl in He'. rewrite lookup_insert in He'.
    destruct (decide (TrackResourceInput.EntityID i = id)) as [Heq|Hne].
    + rewrite Heq in Ht. replace entity with e in * by congruence.
      injection He' as <-. constructor.
    + replace e' with e by congruence. constructor.
Qed.

Lemma entity_step_fixed_fields req e e' :
  entity_step req e e' ->
  ID e' = ID e /\ Name e' = Name e /\ InitiativeRoll e' = InitiativeRoll e
  /\ MaxHP e' = MaxHP e /\ AC e' = AC e /\ IsMonster e' = IsMonster e
  /\ MonsterName e' = MonsterName e
  /\ MaxLegendaryActions e' = MaxLegendaryActions e.
Proof.
  intros Hstep. destruct Hstep; try done.
  unfold startOfTurn. by destruct (resetLegendary_entity e) as [-> | ->].
Qed.

(** X6: a call other than [start_combat] leaves each entity of the
    encounter either untouched or changed in the one field its handler
    assigns: CurrentHP (not negative after damage, at most MaxHP after
    healing), one condition, one resource, the legendary resistances
    lowered by one from a positive count, the legendary actions lowered by
    a cost they cover, or, for the entity whose turn starts, the
    start-of-turn effects. Identity, initiative, MaxHP, AC and the monster
    fields are never written. *)
Theorem call_changes_one_field (rt : Runtime) (st : CombatState) (req : request)
    (id : string) (e e' : Entity) :
  is_start_combat req = false ->
  Entities st !! id = Some e ->
  Entities (final_state (call_tool rt st req)) !! id = Some e' ->
  entity_step req e e'
  /\ ID e' = ID e /\ Name e' = Name e /\ InitiativeRoll e' = InitiativeRoll e
  /\ MaxHP e' = MaxHP e /\ AC e' = AC e /\ IsMonster e' = IsMonster e
  /\ MonsterName e' = MonsterName e
  /\ MaxLegendaryActions e' = MaxLegendaryActions e.
Proof.
  intros Hstart He He'.
  pose proof (call_tool_entity_step rt st req id e e' Hstart He He') as Hstep.
  split; [exact Hstep|]. by apply (entity_step_fixed_fields req).
Qed.

Lemma call_changes_one_field_witness :
  entity_step (apply_damage (ApplyDamageInput.mk "B" 20 "slashing"))
    (newEntity fighter) (with_CurrentHP 10 (newEntity fighter)).
Proof.
  apply (call_changes_one_field (runtime false 6) duel
           (apply_damage (ApplyDamageInput.mk "B" 20 "slashing")) "B"
           (newEntity fighter) (with_CurrentHP 10 (newEntity fighter))).
  - reflexivity.
  - vm_compute. reflexivity.
  - vm_compute. reflexivity.
Defined.

(** ** The legendary pools *)

Lemma call_tool_lookup_back rt st req id e' :
  is_start_combat req = false ->
  Entities (final_state (call_tool rt st req)) !! id = Some e' ->
  exists e, Entities st !! id = Some e.
Proof.
  intros Hstart He'.
  destruct (call_tool_frame rt st req Hstart) as (_ & Hdom & _).
  apply (elem_of_dom (D := gset string)). rewrite <- Hdom.
  apply elem_of_dom. by eexists.
Qed.

Lemma startOfTurn_legendary e :
  LegendaryResistances (startOfTurn e) = LegendaryResistances e
  /\ MaxLegendaryActions (startOfTurn e) = MaxLegendaryActions e
  /\ Resources (startOfTurn e) = Resources e
  /\ LegendaryActions (startOfTurn e) =
       if IsMonster e && (MaxLegendaryActions e >? 0)
       then MaxLegendaryActions e else LegendaryActions e.
Proof.
  unfold startOfTurn, resetLegendary.
  by destruct (IsMonster e && (MaxLegendaryActions e >? 0)).
Qed.

Lemma start_combat_legendary rt st0 input id e :
  Entities (final_state (handleStartCombat rt st0 input)) !! id = Some e ->
  LegendaryActions e = MaxLegendaryActions e
  /\ LegendaryResistances e = MaxLegendaryActions e
  /\ (MaxLegendaryActions e = 3 \/ MaxLegendaryActions e = 0).
Proof.
  simpl. intros He.
  apply createEntities_lookup in He as (d & _ & _ & ->).
  by destruct (newEntity_fresh d) as (_ & _ & _ & _ & _ & _ & _ & _ & ? & ? & ? & _).
Qed.

(** X7: the legendary resistances of every entity are between 0 and 3
    after [start_combat], and every operation keeps them there, whatever
    its input; an operation other than [start_combat] never raises the
    count of an entity and lowers it by one at most. *)
Theorem legendary_resistances_bounded (rt : Runtime) :
  (forall st0 input,
     resistances_bounded (final_state (handleStartCombat rt st0 input)))
  /\ (forall st req,
        resistances_bounded st ->
        resistances_bounded (final_state (call_tool rt st req))
        /\ (is_start_combat req = false ->
            forall id e e',
              Entities st !! id = Some e ->
              Entities (final_state (call_tool rt st req)) !! id = Some e' ->
              LegendaryResistances e - 1 <= LegendaryResistances e'
              <= LegendaryResistances e)).
Proof.
  assert (Hstart : forall st0 input,
            resistances_bounded (final_state (handleStartCombat rt st0 input))).
  { intros st0 input id e He.
    destruct (start_combat_legendary rt st0 input id e He) as (_ & -> & [-> | ->]);
      lia. }
  split; [exact Hstart|]. intros st req Hst.
  assert (Hstep : is_start_combat req = false ->
            forall id e e',
              Entities st !! id = Some e ->
              Entities (final_state (call_tool rt st req)) !! id = Some e' ->
              LegendaryResistances e - 1 <= LegendaryResistances e'
              <= LegendaryResistances e
              /\ 0 <= LegendaryResistances e' <= 3).
  { intros Hreq id e e' He He'. specialize (Hst id e He). simpl in Hst.
    destruct (call_tool_entity_step rt st req id e e' Hreq He He');
      try (simpl; lia).
    - simpl. unfold GoInt.sub. rewrite wrap_id by int_range. lia.
    - destruct (startOfTurn_legendary e) as (-> & _). lia. }
  split; [|intros Hreq id e e' He He'; by destruct (Hstep Hreq id e e' He He')].
  destruct (is_start_combat req) eqn:Hreq.
  - destruct req; try discriminate. cbn [call_tool]. rewrite final_state_map.
    apply Hstart.
  - intros id e' He'.
    destruct (call_tool_lookup_back rt st req id e' Hreq He') as [e He].
    by destruct (Hstep eq_refl id e e' He He').
Qed.

(** X8: the legendary actions of every entity are between 0 and their
    maximum (3 at most) after [start_combat], and stay there under every
    operation as long as no legendary action is asked at a negative
    cost. *)
Theorem legendary_actions_bounded (rt : Runtime) :
  (forall st0 input,
     actions_bounded (final_state (handleStartCombat rt st0 input)))
  /\ (forall st req,
        cost_not_negative req -> actions_bounded st ->
        actions_bounded (final_state (call_tool rt st req))).
Proof.
  assert (Hstart : forall st0 input,
            actions_bounded (final_state (handleStartCombat rt st0 input))).
  { intros st0 input id e He.
    destruct (start_combat_legendary rt st0 input id e He) as (-> & _ & [-> | ->]);
      lia. }
  split; [exact Hstart|]. intros st req Hcost Hst.
  destruct (is_start_combat req) eqn:Hreq.
  - destruct req; try discriminate. cbn [call_tool]. rewrite final_state_map.
    apply Hstart.
  - intros id e' He'.
    destruct (call_tool_lookup_back rt st req id e' Hreq He') as [e He].
    specialize (Hst id e He). simpl in Hst.
    destruct (call_tool_entity_step rt st req id e e' Hreq He He');
      try (simpl in *; lia).
    + simpl in *. unfold GoInt.sub. rewrite wrap_id by int_range. lia.
    + destruct (startOfTurn_legendary e) as (_ & -> & _ & ->).
      destruct (IsMonster e); simpl; [|lia].
      destruct (Z.gtb_spec (MaxLegendaryActions e) 0); lia.
Qed.

(** ** Resources *)

(** X9: no operation but [start_combat] removes a resource: a resource
    name an entity has stays on it, whatever is called. So once
    [track_resource] has set "resistances" on an entity, to any value, 0
    and negative ones included, [apply_damage] on that entity halves the
    damage. *)
Theorem resource_keys_persist (rt : Runtime) :
  (forall st req id e e' k,
     is_start_combat req = false ->
     Entities st !! id = Some e ->
     Entities (final_state (call_tool rt st req)) !! id = Some e' ->
     is_Some (Resources e !! k) -> is_Some (Resources e' !! k))
  /\ (forall st id v d ty target,
        Entities st !! id = Some target ->
        GoInt.ok d ->
        exists st' hp msg unconscious,
          handleApplyDamage
            (final_state
               (handleTrackResource st (TrackResourceInput.mk id "resistances" v)))
            (ApplyDamageInput.mk id d ty) =
          Returned st' (ApplyDamageOutput.mk (Z.quot d 2) hp msg unconscious)).
Proof.
  split.
  - intros st req id e e' k Hreq He He' Hk.
    destruct (call_tool_entity_step rt st req id e e' Hreq He He');
      try done.
    + simpl. rewrite lookup_insert_is_Some.
      destruct (decide (TrackResourceInput.ResourceName i = k));
        [by left | by right].
    + by destruct (startOfTurn_legendary e) as (_ & _ & -> & _).
  - intros st id v d ty target Htarget Hd.
    unfold handleTrackResource. simpl. rewrite Htarget. simpl.
    unfold handleApplyDamage. simpl. rewrite lookup_insert_eq. simpl.
    rewrite lookup_insert_eq. rewrite div2_quot by done.
    by do 4 eexists.
Qed.

(** ** The start of a turn *)

Lemma tick_cases :
  (forall d, 1 < d <= GoInt.max_int -> tick d = Some (d - 1))
  /\ tick 1 = None
  /\ (forall d, d <= 0 -> tick d = Some d).
Proof.
  split; [|split; [done|apply tick_nonpositive]].
  intros d Hd. unfold tick, GoInt.sub. rewrite wrap_id by int_range.
  destruct (Z.gtb_spec d 0); [|lia]. by destruct (Z.eqb_spec (d - 1) 0); [lia|].
Qed.

(** One iteration of the condition loop appends the message of an entry
    whose counter it brings to 0, and nothing else. *)
Lemma processCondition_effects conds effects c d :
  conds !! c = Some d ->
  (processCondition (conds, effects) (c, d)).2 =
  if decide (tick d = None) then effects ++ [endedMessage c] else effects.
Proof.
  intros Hc. unfold processCondition, tick.
  destruct (d >? 0); [|by rewrite decide_False].
  rewrite lookup_insert_eq, Hc. cbn [default from_option id].
  destruct (GoInt.sub d 1 =? 0); cbn [snd].
  - by rewrite decide_True.
  - by rewrite decide_False.
Qed.

Lemma expiring_cons c d l :
  expiring ((c, d) :: l) =
  if decide (tick d = None) then c :: expiring l else expiring l.
Proof.
  unfold expiring. destruct (decide (tick d = None)) as [Ht|Ht].
  - by rewrite filter_cons_True.
  - by rewrite filter_cons_False.
Qed.

Lemma processCondition_loop_effects l : forall conds effects,
  NoDup l.*1 ->
  (forall k v, (k, v) ∈ l -> conds !! k = Some v) ->
  (fold_left processCondition l (conds, effects)).2 =
  effects ++ (endedMessage <$> expiring l).
Proof.
  induction l as [|[c d] l IH]; intros conds effects Hnd Hl; cbn [fold_left].
  - by rewrite app_nil_r.
  - rewrite fmap_cons in Hnd. apply NoDup_cons in Hnd as [Hc Hnd].
    assert (Hcd : conds !! c = Some d) by (apply Hl; left).
    pose proof (fun k => processCondition_lookup conds effects c d k Hcd) as Hlook.
    pose proof (processCondition_effects conds effects c d Hcd) as Heff.
    destruct (processCondition (conds, effects) (c, d)) as [conds1 effects1].
    cbn [fst snd] in Hlook, Heff. rewrite IH; [|done|].
    + rewrite expiring_cons, Heff.
      destruct (decide (tick d = None)); [|done].
      by rewrite fmap_cons, <- app_assoc.
    + intros k' v' Hin. rewrite Hlook, decide_False.
      * apply Hl. by right.
      * intros ->. apply Hc. apply list_elem_of_fmap. by exists (c, v').
Qed.

Lemma processConditions_effects rt current effects :
  (processConditions rt (current, effects)).2 =
  effects ++ (endedMessage <$> expiring (range rt (Conditions current))).
Proof.
  unfold processConditions.
  pose proof (processCondition_loop_effects (range rt (Conditions current))
                (Conditions current) effects (range_NoDup rt _)) as Hloop.
  destruct (fold_left processCondition (range rt (Conditions current))
              (Conditions current, effects)) as [conds effects'].
  cbn [snd] in *. apply Hloop. intros k v. apply range_lookup.
Qed.

Lemma expiring_elem rt (conds : gmap string Z) c :
  c ∈ expiring (range rt conds) <->
  exists d, conds !! c = Some d /\ tick d = None.
Proof.
  unfold expiring. rewrite list_elem_of_fmap. split.
  - intros [[c' d] [-> Hin]]. apply list_elem_of_filter in Hin as [Ht Hin].
    apply range_lookup in Hin. by exists d.
  - intros (d & Hd & Ht). exists (c, d). split; [done|].
    apply list_elem_of_filter. split; [done|]. by apply range_lookup.
Qed.

(** [next_turn] on a valid cursor, in full: the entity the cursor reaches,
    the store and the output. *)
Lemma next_turn_valid_form rt st :
  cursor_valid st ->
  exists currentID current,
    index (TurnOrder st) (CurrentTurn (advanceTurn st)) = Some currentID
    /\ Entities st !! currentID = Some current
    /\ handleNextTurn rt st =
       Returned (store currentID (startOfTurn current) (advanceTurn st))
         (NextTurnOutput.mk currentID (Name current)
            (RoundNumber (advanceTurn st))
            ((resetLegendary current).2
             ++ (endedMessage <$> expiring (range rt (Conditions current))))
            (statusLine rt <$> <[currentID := startOfTurn current]> (Entities st))).
Proof.
  intros Hvalid.
  destruct (next_turn_step rt st Hvalid) as (st' & out & Hcall & _).
  apply handleNextTurn_returned in Hcall as Hform.
  destruct Hform as (currentID & current & effects & Hcur & -> & ->).
  exists currentID, current.
  assert (Hidx : index (TurnOrder st) (CurrentTurn (advanceTurn st))
                 = Some currentID).
  { unfold handleNextTurn in Hcall. rewrite advanceTurn_order in Hcall.
    destruct (index (TurnOrder st) (CurrentTurn (advanceTurn st)))
      as [id'|]; [|done].
    destruct (Entities (advanceTurn st) !! id'); [|done].
    destruct (processConditions rt _). by injection Hcall as _ ->. }
  split; [done|]. split; [done|]. rewrite Hcall. do 2 f_equal.
  - unfold handleNextTurn in Hcall.
    rewrite advanceTurn_order, Hidx, advanceTurn_entities, Hcur in Hcall.
    pose proof (processConditions_effects rt (resetLegendary current).1
                  (resetLegendary current).2) as Heff.
    rewrite <- surjective_pairing in Heff.
    destruct (processConditions rt (resetLegendary current)) as [c2 e2].
    injection Hcall as _ _ ->. cbn [snd] in Heff. rewrite Heff.
    by destruct (resetLegendary_entity current) as [-> | ->].
  - simpl. by rewrite advanceTurn_entities.
Qed.

(** X10: on a valid cursor [next_turn] returns; the entity it announces
    is the one at the new turn index; that entity is stored with its
    legendary actions back at their maximum if it is a monster that has
    any, and with each condition counter above 1 lowered by one, a
    counter of 1 removed and a counter of 0 or below left as it is; no
    other entity changes, and the status summary has a line for each
    entity of the store it leaves. *)
Theorem next_turn_start_of_turn (rt : Runtime) (st : CombatState) :
  cursor_valid st ->
  exists st' out current,
    handleNextTurn rt st = Returned st' out
    /\ index (TurnOrder st') (CurrentTurn st') =
         Some (NextTurnOutput.CurrentEntityID out)
    /\ Entities st !! NextTurnOutput.CurrentEntityID out = Some current
    /\ NextTurnOutput.CurrentEntityName out = Name current
    /\ NextTurnOutput.RoundNumber out = RoundNumber st'
    /\ Entities st' =
         <[NextTurnOutput.CurrentEntityID out := startOfTurn current]> (Entities st)
    /\ CurrentHP (startOfTurn current) = CurrentHP current
    /\ LegendaryActions (startOfTurn current) =
         (if IsMonster current && (MaxLegendaryActions current >? 0)
          then MaxLegendaryActions current else LegendaryActions current)
    /\ (forall c d,
          Conditions current !! c = Some d -> d <= GoInt.max_int ->
          Conditions (startOfTurn current) !! c =
          if decide (d <= 0) then Some d
          else if decide (d = 1) then None else Some (d - 1))
    /\ (forall c,
          Conditions current !! c = None ->
          Conditions (startOfTurn current) !! c = None)
    /\ NextTurnOutput.CombatStatus out = statusLine rt <$> Entities st'.
Proof.
  intros Hvalid.
  destruct (next_turn_valid_form rt st Hvalid)
    as (currentID & current & Hidx & Hcur & Hcall).
  destruct (startOfTurn_fields current) as (_ & _ & Hhp & _ & Hconds).
  destruct (startOfTurn_legendary current) as (_ & _ & _ & Hla).
  do 2 eexists. exists current. split; [exact Hcall|].
  set (sot := startOfTurn current) in *. clearbody sot. simpl.
  rewrite advanceTurn_order, advanceTurn_entities.
  split; [done|]. split; [done|]. split; [done|]. split; [done|].
  split; [done|]. split; [done|]. split; [done|]. rewrite Hconds.
  split; [|split; [|done]].
  - intros c d Hc Hmax. rewrite lookup_omap, Hc. simpl.
    destruct (decide (d <= 0)); [by apply tick_nonpositive|].
    destruct (decide (d = 1)) as [->|Hne]; [done|].
    apply tick_cases. lia.
  - intros c Hc. by rewrite lookup_omap, Hc.
Qed.

Lemma duel_cursor_valid : cursor_valid duel.
Proof.
  apply start_combat_cursor_valid.
  - vm_compute. lia.
  - vm_compute. discriminate.
Qed.

Lemma next_turn_start_of_turn_witness :
  exists st' out current,
    handleNextTurn (runtime false 6) duel = Returned st' out
    /\ index (TurnOrder st') (CurrentTurn st') =
         Some (NextTurnOutput.CurrentEntityID out)
    /\ Entities duel !! NextTurnOutput.CurrentEntityID out = Some current
    /\ NextTurnOutput.CurrentEntityName out = Name current.
Proof.
  destruct (next_turn_start_of_turn (runtime false 6) duel duel_cursor_valid)
    as (st' & out & current & H1 & H2 & H3 & H4 & _).
  by exists st', out, current.
Defined.

(** X11: the effects [next_turn] reports on a valid cursor are, in this
    order, the message that the legendary actions were reset, present
    exactly when the current entity is a monster with a positive maximum
    of legendary actions, and one "ended" message for each condition the
    loop removed, each once, in the order the conditions were walked.
    With [int] counters, the removed conditions are those whose counter
    was 1. *)
Theorem next_turn_effects (rt : Runtime) (st : CombatState) :
  cursor_valid st ->
  exists st' out current,
    handleNextTurn rt st = Returned st' out
    /\ Entities st !! NextTurnOutput.CurrentEntityID out = Some current
    /\ NextTurnOutput.Effects out =
         (if IsMonster current && (MaxLegendaryActions current >? 0)
          then ["Legendary actions reset to "
                +:+ fmt_d (MaxLegendaryActions current)]
          else [])
         ++ (endedMessage <$> expiring (range rt (Conditions current)))
    /\ NoDup (expiring (range rt (Conditions current)))
    /\ (map_Forall (fun _ d => d <= GoInt.max_int) (Conditions current) ->
        forall c,
          c ∈ expiring (range rt (Conditions current)) <->
          Conditions current !! c = Some 1).
Proof.
  intros Hvalid.
  destruct (next_turn_valid_form rt st Hvalid)
    as (currentID & current & Hidx & Hcur & Hcall).
  do 2 eexists. exists current. split; [exact Hcall|]. cbn.
  split; [done|]. split.
  { unfold resetLegendary. by destruct (IsMonster current && _). }
  split.
  { unfold expiring.
    eapply sublist_NoDup; [apply (range_NoDup rt (Conditions current))|].
    apply fmap_sublist, sublist_filter. }
  intros Hints c. rewrite expiring_elem. split.
  - intros (d & Hd & Ht). specialize (Hints c d Hd). simpl in Hints.
    destruct (decide (d <= 0)) as [Hle|Hpos].
    { by rewrite tick_nonpositive in Ht. }
    destruct (decide (d = 1)) as [->|Hne]; [done|].
    destruct tick_cases as (Hdec & _). rewrite Hdec in Ht by lia. done.
  - intros Hone. by exists 1.
Qed.

Lemma next_turn_effects_witness :
  exists st' out current,
    handleNextTurn (runtime false 6) duel = Returned st' out
    /\ Entities duel !! NextTurnOutput.CurrentEntityID out = Some current.
Proof.
  destruct (next_turn_effects (runtime false 6) duel duel_cursor_valid)
    as (st' & out & current & H1 & H2 & _).
  by exists st', out, current.
Defined.

(** ** Timed conditions *)

Lemma turns_taken_cons id out outs :
  turns_taken id (out :: outs) =
  (if decide (NextTurnOutput.CurrentEntityID out = id) then 1 else 0)
  + turns_taken id outs.
Proof.
  unfold turns_taken, len.
  destruct (decide (NextTurnOutput.CurrentEntityID out = id)).
  - rewrite filter_cons_True by done. simpl length. lia.
  - rewrite filter_cons_False by done. lia.
Qed.

Lemma turns_taken_nonneg id outs : 0 <= turns_taken id outs.
Proof. unfold turns_taken, len. lia. Qed.

Lemma condition_countdown rt id c n : forall st e o,
  cursor_valid st ->
  Entities st !! id = Some e ->
  Conditions e !! c = o ->
  (forall d, o = Some d -> 0 < d <= GoInt.max_int) ->
  exists st' outs e',
    next_turns_log rt n st = Some (st', outs)
    /\ length outs = n
    /\ Entities st' !! id = Some e'
    /\ Conditions e' !! c = o ≫= countdown (turns_taken id outs).
Proof.
  induction n as [|n IH]; intros st e o Hvalid He Hc Ho; cbn [next_turns_log].
  - exists st, [], e. split; [done|]. split; [done|]. split; [done|].
    rewrite Hc. destruct o as [d|]; [|done]. simpl. unfold countdown.
    change (turns_taken id []) with 0. rewrite decide_True by (apply Ho; done).
    f_equal. lia.
  - destruct (next_turn_valid_form rt st Hvalid)
      as (currentID & current & Hidx & Hcur & Hcall).
    destruct (next_turn_step rt st Hvalid) as (st1 & out1 & Hcall1 & Hvalid1 & _).
    rewrite Hcall in Hcall1. injection Hcall1 as Hst1 Hout1.
    rewrite Hcall. rewrite Hst1.
    set (e1 := if decide (currentID = id) then startOfTurn e else e).
    set (o1 := if decide (currentID = id) then o ≫= tick else o).
    assert (He1 : Entities st1 !! id = Some e1).
    { rewrite <- Hst1, store_lookup, advanceTurn_entities. subst e1.
      destruct (decide (currentID = id)) as [->|]; [|done].
      by replace current with e by congruence. }
    assert (Hc1 : Conditions e1 !! c = o1).
    { subst e1 o1. destruct (decide (currentID = id)); [|done].
      destruct (startOfTurn_fields e) as (_ & _ & _ & _ & ->).
      by rewrite lookup_omap, Hc. }
    assert (Ho1 : forall d, o1 = Some d -> 0 < d <= GoInt.max_int).
    { subst o1. destruct (decide (currentID = id)); [|done].
      intros d Hd. destruct o as [d0|]; [|done]. simpl in Hd.
      specialize (Ho d0 eq_refl).
      destruct (decide (d0 = 1)) as [->|]; [done|].
      destruct tick_cases as (Hdec & _). rewrite Hdec in Hd by lia.
      injection Hd as <-. lia. }
    destruct (IH st1 e1 o1 Hvalid1 He1 Hc1 Ho1)
      as (st' & outs & e' & -> & Hlen & He' & Hc').
    exists st', (out1 :: outs), e'. rewrite Hout1.
    split; [done|]. split; [simpl; lia|]. split; [done|].
    rewrite Hc', turns_taken_cons. rewrite <- Hout1. cbn.
    pose proof (turns_taken_nonneg id outs) as Hk.
    subst o1. destruct (decide (currentID = id)) as [Heq|Hne]; [|done].
    destruct o as [d0|]; [|done]. simpl. specialize (Ho d0 eq_refl).
    destruct (decide (d0 = 1)) as [->|Hd0].
    + simpl. unfold countdown. by rewrite decide_False by lia.
    + destruct tick_cases as (Hdec & _). rewrite Hdec by lia. simpl.
      unfold countdown.
      destruct (decide (turns_taken id outs < d0 - 1)).
      * rewrite decide_True by lia. f_equal. lia.
      * by rewrite decide_False by lia.
Qed.

(** X12: a condition with a positive duration D on an entity expires
    with the D-th turn of that entity and not before. After any number of
    [next_turn] calls on a valid cursor, if the entity was the current one
    in k of them, the counter is D - k when k < D and the condition is
    gone when k >= D; the turns of other entities do not count. *)
Theorem condition_expires_after_its_duration (rt : Runtime) (n : nat)
    (st : CombatState) (id c : string) (e : Entity) (D : Z) :
  cursor_valid st ->
  Entities st !! id = Some e ->
  Conditions e !! c = Some D ->
  0 < D <= GoInt.max_int ->
  exists st' outs e',
    next_turns_log rt n st = Some (st', outs)
    /\ length outs = n
    /\ Entities st' !! id = Some e'
    /\ Conditions e' !! c =
         if decide (turns_taken id outs < D)
         then Some (D - turns_taken id outs) else None.
Proof.
  intros Hvalid He Hc HD.
  destruct (condition_countdown rt id c n st e (Some D) Hvalid He Hc)
    as (st' & outs & e' & Hrun & Hlen & He' & Hc').
  { by intros d [= <-]. }
  by exists st', outs, e'.
Qed.

Lemma duel_conditions_cursor_valid : cursor_valid duel_conditions.
Proof.
  do 2 apply store_cursor_valid. exact duel_cursor_valid.
Qed.

Lemma condition_expires_after_its_duration_witness :
  exists st' outs e',
    next_turns_log (runtime false 6) 4 duel_conditions = Some (st', outs)
    /\ length outs = 4%nat
    /\ Entities st' !! "B" = Some e'
    /\ Conditions e' !! "prone" =
         if decide (turns_taken "B" outs < 2)
         then Some (2 - turns_taken "B" outs) else None.
Proof.
  apply (condition_expires_after_its_duration (runtime false 6) 4
           duel_conditions "B" "prone"
           (with_Conditions (<["prone" := 2]> (<["stunned" := 3]> ∅))
              (newEntity fighter)) 2).
  - exact duel_conditions_cursor_valid.
  - vm_compute. reflexivity.
  - vm_compute. reflexivity.
  - unfold GoInt.max_int. lia.
Defined.

(** ** The turn-transition prompt *)






(** X14: the turn-transition prompt returns "combat state not
    initialized" when there is no combat state, and on a combat state
    with an empty turn order, as before any [start_combat] or after one
    with no entities, it panics on the division by the length of the turn
    order instead of returning an error. It never returns an error on a
    combat state. *)
Theorem turn_transition_prompt_edges (rt : Runtime) :
  handleTurnTransitionPrompt rt None =
    PromptError "combat state not initialized"
  /\ (forall st,
        TurnOrder st = [] ->
        handleTurnTransitionPrompt rt (Some st) =
        PromptPanic "integer divide by zero")
  /\ handleTurnTransitionPrompt rt (Some registered) =
       PromptPanic "integer divide by zero"
  /\ (forall st0,
        handleTurnTransitionPrompt rt
          (Some (final_state (handleStartCombat rt st0 (StartCombatInput.mk []))))
        = PromptPanic "integer divide by zero")
  /\ (forall st err, handleTurnTransitionPrompt rt (Some st) <> PromptError err).
Proof.
  assert (Hempty : forall st,
            TurnOrder st = [] ->
            handleTurnTransitionPrompt rt (Some st) =
            PromptPanic "integer divide by zero").
  { intros st Hst. unfold handleTurnTransitionPrompt. by rewrite Hst. }
  split; [done|]. split; [exact Hempty|]. split; [by apply Hempty|].
  split.
  - intros st0. apply Hempty. simpl.
    change (createEntities []) with (∅ : gmap string Entity).
    apply computeTurnOrder_empty.
  - intros st err. unfold handleTurnTransitionPrompt.
    destruct (_ =? _); [done|]. destruct (index _ _); [|done].
    destruct (Entities st !! _); [|done]. by destruct (promptStatus _ _ _ _).
Qed.

(** ** Sequences of calls *)

Lemma createEntities_size_le l : (size (createEntities l) <= length l)%nat.
Proof.
  induction l as [|e l IH] using rev_ind; [done|].
  rewrite createEntities_snoc, length_app. simpl.
  destruct (createEntities l !! EntityInit.ID e) as [x|] eqn:Hx.
  - rewrite map_size_insert_Some by (by eexists). lia.
  - rewrite map_size_insert_None by done. lia.
Qed.

Lemma createEntities_nonempty l : l <> [] -> (1 <= size (createEntities l))%nat.
Proof.
  destruct l as [|e l] using rev_ind; [done|]. intros _.
  rewrite createEntities_snoc.
  assert (size (<[EntityInit.ID e := newEntity e]> (createEntities l)) <> 0%nat).
  { apply (map_size_ne_0_lookup_2 _ (EntityInit.ID e)).
    rewrite lookup_insert_eq. by eexists. }
  lia.
Qed.

Lemma handlers_never_panic rt st req :
  request_entity req <> None -> is_panic (call_tool rt st req) = false.
Proof.
  destruct req as [i| |i|i|i|i|i|i]; simpl; try done; intros _.
  - unfold handleApplyDamage.
    destruct (Entities st !! _) as [e|]; [|done].
    by destruct (Resources e !! "resistances").
  - unfold handleApplyHealing. by destruct (Entities st !! _).
  - unfold handleAddCondition. by destruct (Entities st !! _).
  - unfold handleSavingThrow.
    destruct (Entities st !! _) as [e|]; [|done]. by destruct (negb _ && _).
  - unfold handleLegendaryAction.
    destruct (Entities st !! _) as [e|]; [|done]. by destruct (_ <? _).
  - unfold handleTrackResource. by destruct (Entities st !! _).
Qed.

(** One call on a valid cursor does not panic and leaves a valid cursor,
    if a [start_combat] it makes brings an entity. *)
Lemma call_keeps_cursor_valid rt st req :
  cursor_valid st -> brings_entities (rt, req) ->
  is_panic (call_tool rt st req) = false
  /\ cursor_valid (final_state (call_tool rt st req)).
Proof.
  intros Hvalid Hreq.
  destruct (request_entity req) as [id|] eqn:Hid.
  - split; [apply handlers_never_panic; by rewrite Hid|].
    destruct (call_tool_writes_one rt st req id Hid) as [->|(e & e' & _ & ->)];
      [done | by apply store_cursor_valid].
  - destruct req as [i| | | | | | |]; try discriminate.
    + split; [done|]. cbn [call_tool]. rewrite final_state_map.
      destruct Hreq as [Hne Hlen]. simpl in Hne, Hlen.
      apply start_combat_cursor_valid; simpl.
      * rewrite computeTurnOrder_length. by apply createEntities_nonempty.
      * unfold len in *. rewrite computeTurnOrder_length.
        pose proof (createEntities_size_le (StartCombatInput.Entities i)). lia.
    + cbn [call_tool].
      destruct (next_turn_step rt st Hvalid) as (st' & out & -> & Hvalid' & _).
      by split.
Qed.

(** X15: once the cursor is valid, as it is after a [start_combat] that
    brings at least one entity, no call panics, whatever the requests and
    their inputs and in whatever order they come, as long as every later
    [start_combat] brings at least one entity too; in particular
    [next_turn] always finds a current entity. The cursor is valid after
    every call. *)
Theorem started_encounter_never_panics (calls : list (Runtime * request)) :
  (forall rt st0 i,
     brings_entities (rt, start_combat i) ->
     cursor_valid (final_state (call_tool rt st0 (start_combat i))))
  /\ (forall st,
        cursor_valid st ->
        Forall brings_entities calls ->
        Forall (fun o => is_panic o = false) (run calls st)
        /\ Forall (fun o => cursor_valid (final_state o)) (run calls st)
        /\ cursor_valid (run_state calls st)
        /\ length (run calls st) = length calls).
Proof.
  split.
  - intros rt st0 i [Hne Hlen]. simpl in Hne, Hlen.
    cbn [call_tool]. rewrite final_state_map.
    apply start_combat_cursor_valid; simpl.
    + rewrite computeTurnOrder_length. by apply createEntities_nonempty.
    + unfold len in *. rewrite computeTurnOrder_length.
      pose proof (createEntities_size_le (StartCombatInput.Entities i)). lia.
  - induction calls as [|[rt req] calls IH]; intros st Hvalid Hcalls.
    + simpl. split; [constructor|]. split; [constructor|]. by split.
    + apply Forall_cons in Hcalls as [Hcall Hcalls].
      destruct (call_keeps_cursor_valid rt st req Hvalid Hcall) as [Hp Hv].
      destruct (IH _ Hv Hcalls) as (H1 & H2 & H3 & H4).
      cbn [run run_state fold_left].
      split; [by constructor|]. split; [by constructor|].
      split; [exact H3|]. simpl. by rewrite H4.
Qed.
